(** * Ethereum Node Records: the [ENR] class of [src/enr/enr.ts]

    A shallow embedding of the class and of what it calls, and the
    properties of its specification proved, or refuted, on it.

    - A [Buffer] is a list of bytes; an [ENRKey] is a string, read as the
      UTF-8 bytes of the JavaScript string.
    - The class extends [Map]: the entries are kept as an association list
      in insertion order, because [encode] sorts [Array.from(this.keys())]
      with a stable sort and so observes that order.
    - A method that mutates the record or throws is a computation in the
      monad [M]: a function from the record to the record it leaves behind
      and either a value or the error thrown.  A throw keeps the mutations
      made before it, as it does in JavaScript.
    - What the class imports from outside [src/] is either modelled from the
      specification (the codec [RLP], the constant [MAX_RECORD_SIZE], the
      types of [types.ts]) or a variable of the section
      [WithIdentityScheme]: the identity scheme [v4], the collation behind
      [String.prototype.localeCompare], the constructor of the package
      multiaddr, the package base64url, and what the runtime and the
      package bigint-buffer do where [decode] takes them beyond byte
      strings (an item received that is an array, a key that is not UTF-8
      or is named __proto__).

    The definitions come first, in the order of the source; the properties
    follow: the codec, the map, [set], the endpoint views, [encode],
    [decode]; the last part runs the class on concrete records. *)

From Stdlib Require Import String Ascii Strings.Byte NArith ZArith Bool Lia.
From Stdlib Require Import DecimalString HexadecimalString List Permutation Sorted.
Import ListNotations.

Set Warnings "-register-all".

Local Open Scope string_scope.
Local Open Scope list_scope.

(** ** Buffers *)

Definition Buffer := list byte.

Definition byte_of_N (n : N) : byte :=
  match Byte.of_N (n mod 256) with
  | Some b => b
  | None => x00
  end.

(** [Buffer.from(s)] of a string and [buf.toString()] of a buffer. *)
Definition Buffer_from (s : string) : Buffer := list_byte_of_string s.
Definition Buffer_toString (b : Buffer) : string := string_of_list_byte b.

(** Whether the bytes are the UTF-8 encoding of a string: every character
    in its shortest form, none above U+10FFFF and none in the range of the
    surrogates.  For such bytes [buf.toString()] is the string they encode
    and [Buffer.from] of that string gives them back. *)
Definition between (lo hi : N) (b : byte) : bool :=
  ((lo <=? Byte.to_N b) && (Byte.to_N b <=? hi))%N.

Fixpoint utf8_valid (b : Buffer) : bool :=
  match b with
  | [] => true
  | b0 :: rest =>
      if between 0x00 0x7f b0 then utf8_valid rest
      else if between 0xc2 0xdf b0 then
        match rest with
        | b1 :: rest' => between 0x80 0xbf b1 && utf8_valid rest'
        | _ => false
        end
      else if between 0xe0 0xef b0 then
        match rest with
        | b1 :: b2 :: rest' =>
            (if between 0xe0 0xe0 b0 then between 0xa0 0xbf b1
             else if between 0xed 0xed b0 then between 0x80 0x9f b1
             else between 0x80 0xbf b1)
            && between 0x80 0xbf b2 && utf8_valid rest'
        | _ => false
        end
      else if between 0xf0 0xf4 b0 then
        match rest with
        | b1 :: b2 :: b3 :: rest' =>
            (if between 0xf0 0xf0 b0 then between 0x90 0xbf b1
             else if between 0xf4 0xf4 b0 then between 0x80 0x8f b1
             else between 0x80 0xbf b1)
            && between 0x80 0xbf b2 && between 0x80 0xbf b3 && utf8_valid rest'
        | _ => false
        end
      else false
  end.

(** The unsigned big-endian integer a buffer holds: [toBigIntBE] of the
    package bigint-buffer (the empty buffer holds 0). *)
Definition toBigIntBE (buf : Buffer) : N :=
  fold_left (fun acc b => (acc * 256 + Byte.to_N b)%N) buf 0%N.

(** The minimal big-endian bytes of an integer, most significant first; 0
    has none. *)
Fixpoint be_bytes (fuel : nat) (n : N) (acc : Buffer) : Buffer :=
  match fuel with
  | O => acc
  | S fuel' =>
      if (n =? 0)%N then acc
      else be_bytes fuel' (n / 256)%N (byte_of_N n :: acc)
  end.

Definition intToBuffer (n : N) : Buffer :=
  be_bytes (N.to_nat (N.size n)) n [].

(** ** JavaScript numbers

    [Number(b)] of a bigint is the double nearest to it, ties to even: a
    double keeps 53 significant bits. *)
Inductive JSNumber :=
| Finite (n : N)
| Infinity.

Definition round53 (n : N) : N :=
  if (n <? 2 ^ 53)%N then n
  else
    let e := (N.log2 n - 52)%N in
    let q := N.shiftr n e in
    let r := (n mod 2 ^ e)%N in
    let half := (2 ^ (e - 1))%N in
    let q' :=
      if (r <? half)%N then q
      else if (half <? r)%N then (q + 1)%N
      else if N.even q then q else (q + 1)%N in
    (q' * 2 ^ e)%N.

Definition Number (n : N) : JSNumber :=
  let d := round53 n in
  if (d <? 2 ^ 1024)%N then Finite d else Infinity.

(** ** Errors

    The source throws [Error]s and assertion failures told apart by their
    message only; the constructors name them as the specification does.
    - [ERR_INVALID_ID], [ERR_NO_SIGNATURE]: the constants of that name
      (UnsupportedIdentityScheme, NoSignature);
    - [RecordTooLarge]: the assertion "ENR must be less than 300 bytes";
    - [InvalidSignature]: the assertion "Unable to verify enr signature";
    - [MalformedRecord]: a throw of the codec, and the assertions "Decoded
      ENR must be an array" and "Decoded ENR must have an even number of
      elements";
    - [InvalidEndpoint]: the error "Invalid udp multiaddr";
    - [TypeError], [RangeError]: the exceptions of the JavaScript runtime
      (a property of [undefined] read, a buffer read out of range);
    - [PackageError]: an exception thrown inside a package that is not
      under [src/] and has no part in the specification ([bigint-buffer],
      [multiaddr]), on a value it does not take, whatever its class. *)
Inductive Error :=
| ERR_INVALID_ID
| ERR_NO_SIGNATURE
| RecordTooLarge
| InvalidSignature
| MalformedRecord
| InvalidEndpoint
| TypeError
| RangeError
| PackageError.

Inductive result (A : Type) :=
| Ok (a : A)
| Err (e : Error).

Arguments Ok {A} a.
Arguments Err {A} e.

Definition result_bind {A B} (r : result A) (k : A -> result B) : result B :=
  match r with
  | Ok a => k a
  | Err e => Err e
  end.

Declare Scope result_scope.
Delimit Scope result_scope with result.
Notation "x <- r ;; k" := (result_bind r (fun x => k))
  (at level 61, r at next level, right associativity) : result_scope.
Notation "' p <- r ;; k" := (result_bind r (fun p => k))
  (at level 61, p pattern, r at next level, right associativity) : result_scope.

(** [buf.readUInt16BE(0)]: a [RangeError] when the buffer has fewer than two
    bytes. *)
Definition readUInt16BE (buf : Buffer) : result N :=
  match buf with
  | b0 :: b1 :: _ => Ok (Byte.to_N b0 * 256 + Byte.to_N b1)%N
  | _ => Err RangeError
  end.

(** ** The canonical codec

    Modelled from the spec: the codec is the package rlp, which is not under
    [src/]; the definitions follow section 4.2 of the specification.  An
    item is a byte string or a list of items.  A byte string is written as
    itself when it is one byte below 0x80, else behind a header holding its
    length (one byte up to 55 bytes, else a byte and the big-endian length);
    a list is the concatenation of its items behind such a header for the
    total length.  An integer is written as its minimal big-endian bytes,
    zero as the empty string.  Decoding rejects truncated input, a declared
    length that exceeds what is left, and a length written with a leading
    zero byte; it is lenient otherwise (a short length may be written in
    the long form). *)
Module RLP.

(** What [ENR.encode] puts in the array it hands to [RLP.encode]: keys
    (strings), values (buffers), the sequence number (a number), and
    [undefined] where a key has no value. *)
Inductive Input :=
| IStr (s : string)
| IBuf (b : Buffer)
| INum (n : JSNumber)
| IUndefined.

Definition toBuffer (v : Input) : Buffer :=
  match v with
  | IStr s => Buffer_from s
  | IBuf b => b
  | INum (Finite n) => intToBuffer n
  | INum Infinity => [] (* no hexadecimal digit to write *)
  | IUndefined => []
  end.

Definition encodeLength (len : nat) (offset : N) : Buffer :=
  if (len <? 56)%nat then [byte_of_N (N.of_nat len + offset)]
  else
    let lenBytes := intToBuffer (N.of_nat len) in
    byte_of_N (offset + 55 + N.of_nat (length lenBytes)) :: lenBytes.

Definition encodeBuffer (b : Buffer) : Buffer :=
  match b with
  | [x] => if (Byte.to_N x <? 128)%N then [x] else encodeLength 1 128 ++ b
  | _ => encodeLength (length b) 128 ++ b
  end.

(** [RLP.encode] of an array of strings, buffers and numbers. *)
Definition encode (input : list Input) : Buffer :=
  let output := concat (map (fun v => encodeBuffer (toBuffer v)) input) in
  encodeLength (length output) 192 ++ output.

Inductive Decoded :=
| DBuffer (b : Buffer)
| DList (items : list Decoded).

(** [RLP.encode] of an item as [RLP.decode] returns them: a byte string
    behind its header, a list as the concatenation of its items behind the
    header for the total length.  [undefined] is written as the empty
    string, and [encodeArray] is [RLP.encode] of an array of such values. *)
Fixpoint encodeDecoded (d : Decoded) : Buffer :=
  match d with
  | DBuffer b => encodeBuffer b
  | DList items =>
      let output := concat (map encodeDecoded items) in
      encodeLength (length output) 192 ++ output
  end.

Definition encodeValue (v : option Decoded) : Buffer :=
  match v with
  | Some d => encodeDecoded d
  | None => encodeBuffer []
  end.

Definition encodeArray (input : list (option Decoded)) : Buffer :=
  let output := concat (map encodeValue input) in
  encodeLength (length output) 192 ++ output.

Definition take (n : nat) (input : Buffer) : result (Buffer * Buffer) :=
  if (length input <? n)%nat then Err MalformedRecord
  else Ok (firstn n input, skipn n input).

Definition parseLength (lenBytes : Buffer) : result nat :=
  match lenBytes with
  | x00 :: _ => Err MalformedRecord
  | _ => Ok (N.to_nat (toBigIntBE lenBytes))
  end.

Local Open Scope result_scope.

(** One item off the front of the input, and what is left of it. *)
Fixpoint _decode (fuel : nat) (input : Buffer) : result (Decoded * Buffer) :=
  match fuel with
  | O => Err MalformedRecord
  | S fuel' =>
      match input with
      | [] => Err MalformedRecord
      | firstByte :: rest =>
          let fb := Byte.to_N firstByte in
          if (fb <=? 0x7f)%N then Ok (DBuffer [firstByte], rest)
          else if (fb <=? 0xb7)%N then
            ' (data, remainder) <- take (N.to_nat (fb - 0x80)) rest ;;
            Ok (DBuffer data, remainder)
          else if (fb <=? 0xbf)%N then
            ' (lenBytes, rest') <- take (N.to_nat (fb - 0xb7)) rest ;;
            len <- parseLength lenBytes ;;
            ' (data, remainder) <- take len rest' ;;
            Ok (DBuffer data, remainder)
          else if (fb <=? 0xf7)%N then
            ' (payload, remainder) <- take (N.to_nat (fb - 0xc0)) rest ;;
            items <- decodeItems fuel' payload ;;
            Ok (DList items, remainder)
          else
            ' (lenBytes, rest') <- take (N.to_nat (fb - 0xf7)) rest ;;
            len <- parseLength lenBytes ;;
            ' (payload, remainder) <- take len rest' ;;
            items <- decodeItems fuel' payload ;;
            Ok (DList items, remainder)
      end
  end
with decodeItems (fuel : nat) (input : Buffer) : result (list Decoded) :=
  match fuel with
  | O => Err MalformedRecord
  | S fuel' =>
      match input with
      | [] => Ok []
      | _ =>
          ' (d, remainder) <- _decode fuel' input ;;
          ds <- decodeItems fuel' remainder ;;
          Ok (d :: ds)
      end
  end.

(** [RLP.decode]: the whole input is one item.  No item is nested deeper,
    and no list holds more items, than the input has bytes: the fuel is
    never what stops a decoding. *)
Definition decode (input : Buffer) : result Decoded :=
  ' (d, remainder) <- _decode (2 * length input + 2) input ;;
  match remainder with
  | [] => Ok d
  | _ => Err MalformedRecord
  end.

End RLP.

(** ** Types and constants of the record

    [ENRKey], [ENRValue], [SequenceNumber] and [NodeId] are declared in
    [types.ts] and [MAX_RECORD_SIZE] in [constants.ts], neither under
    [src/]. *)

Definition ENRKey := string.
Definition ENRValue := Buffer.

(** Modelled from the spec: [SequenceNumber] (types.ts) is a bigint holding
    the specification's unsigned integer. *)
Definition SequenceNumber := N.

(** Modelled from the spec: [NodeId] (types.ts) is the fixed-width node
    identifier, 32 bytes for the scheme v4. *)
Definition NodeId := Buffer.

(** Modelled from the spec: [MAX_RECORD_SIZE] (constants.ts) is the 300
    bytes of the specification and of the assertion's message in [encode]. *)
Definition MAX_RECORD_SIZE : nat := 300.

(** ** The built-in [Map] the class extends

    Entries in insertion order: [set] on a key the map has replaces the
    value where it stands, on a new key it adds the entry at the end. *)
Definition JSMap := list (ENRKey * ENRValue).

Fixpoint Map_get (k : ENRKey) (m : JSMap) : option ENRValue :=
  match m with
  | [] => None
  | (k', v) :: m' => if String.eqb k' k then Some v else Map_get k m'
  end.

Fixpoint Map_set (k : ENRKey) (v : ENRValue) (m : JSMap) : JSMap :=
  match m with
  | [] => [(k, v)]
  | (k', v') :: m' =>
      if String.eqb k' k then (k, v) :: m' else (k', v') :: Map_set k v m'
  end.

Definition Map_keys (m : JSMap) : list ENRKey := map fst m.

(** The [Map] made of [Object.entries(kvs)], the list of the properties of
    an object: the [Map] constructor adds them one by one.  The list of an
    object literal has its properties in the order they were written,
    those whose keys are array indices before the others
    ([Object_entries]). *)
Definition Map_of_entries (kvs : list (ENRKey * ENRValue)) : JSMap :=
  fold_left (fun m kv => Map_set (fst kv) (snd kv) m) kvs [].

(** The value the last pair with the key [k] gives it, if there is one. *)
Fixpoint lastValue (k : ENRKey) (kvs : list (ENRKey * ENRValue)) : option ENRValue :=
  match kvs with
  | [] => None
  | (k', v) :: kvs' =>
      match lastValue k kvs' with
      | Some v' => Some v'
      | None => if String.eqb k' k then Some v else None
      end
  end.

(** [Array.prototype.sort] with a comparator: a stable sort, an element [a]
    staying before [b] when [compare a b <= 0].  (What the engine returns
    for a comparator that is not an order is left to it; [localeCompare] is
    one.) *)
Section Sort.
Context {A : Type} (compare : A -> A -> Z).

Fixpoint sort_insert (a : A) (sorted : list A) : list A :=
  match sorted with
  | [] => [a]
  | b :: sorted' =>
      if (compare a b <=? 0)%Z then a :: b :: sorted'
      else b :: sort_insert a sorted'
  end.

Definition Array_sort (l : list A) : list A :=
  fold_right sort_insert [] l.

End Sort.


(** The comparison the specification asks for: byte by byte. *)
Definition bytewiseCompare (a b : string) : Z :=
  match String.compare a b with
  | Lt => (-1)%Z
  | Eq => 0%Z
  | Gt => 1%Z
  end.

(** ** Plain objects

    The object [obj] that [decode] fills by assignments [obj[k] = v]: its
    own properties in the order of their creation, and its prototype,
    [None] while it is [Object.prototype] and the buffer that an assignment
    to the key __proto__ has put in its place after that. *)
Record JSObject := mkObject {
  own : JSMap;
  proto : option Buffer
}.

Definition emptyObject : JSObject := mkObject [] None.

(** The array index that a key is, if it is one: the decimal text, without
    sign or leading zero, of an integer below 2^32 - 1. *)
Definition arrayIndex (k : ENRKey) : option N :=
  match DecimalString.NilZero.uint_of_string k with
  | Some d =>
      let n := N.of_uint d in
      if String.eqb (DecimalString.NilZero.string_of_uint (N.to_uint n)) k
         && (n <? 2 ^ 32 - 1)%N
      then Some n else None
  | None => None
  end.

Definition isIndex (kv : ENRKey * ENRValue) : bool :=
  match arrayIndex (fst kv) with
  | Some _ => true
  | None => false
  end.

Definition indexCompare (a b : ENRKey * ENRValue) : Z :=
  match arrayIndex (fst a), arrayIndex (fst b) with
  | Some m, Some n => (Z.of_N m - Z.of_N n)%Z
  | _, _ => 0%Z
  end.

(** [Object.entries(obj)]: the properties whose keys are array indices come
    first, in ascending order of the index, then the other properties in
    the order of their creation. *)
Definition Object_entries (obj : JSObject) : list (ENRKey * ENRValue) :=
  Array_sort indexCompare (filter isIndex (own obj))
  ++ filter (fun kv => negb (isIndex kv)) (own obj).

(** A key that [decode] gives back as [encode] wrote it: the UTF-8 bytes of
    a string, and not the name __proto__. *)
Definition plainKey (k : ENRKey) : bool :=
  utf8_valid (Buffer_from k) && negb (String.eqb k "__proto__").

(** ** The record *)

Record ENR := mkENR {
  entries : JSMap;
  seq : SequenceNumber;
  signature : option Buffer
}.

(** [new ENR(kvs, seq, signature)], the object [kvs] given by the list
    [Object.entries(kvs)].  The [Map] constructor adds the entries through
    the overridden [set], which touches [seq] and [signature]; the
    constructor assigns both afterwards. *)
Definition new_ENR (kvs : list (ENRKey * ENRValue)) (seq : SequenceNumber)
    (signature : option Buffer) : ENR :=
  mkENR (Map_of_entries kvs) seq signature.

(** [ENR.createV4(publicKey, kvs)]: sequence number [1n], no signature. *)
Definition createV4 (publicKey : Buffer) (kvs : list (ENRKey * ENRValue)) : ENR :=
  new_ENR (kvs ++ [("id", Buffer_from "v4"); ("secp256k1", publicKey)]) 1%N None.

(** ** Methods as computations on the record *)

Definition M (A : Type) : Type := ENR -> ENR * result A.

Definition ret {A} (a : A) : M A := fun this => (this, Ok a).
Definition throw {A} (e : Error) : M A := fun this => (this, Err e).
Definition bind {A B} (m : M A) (k : A -> M B) : M B :=
  fun this =>
    match m this with
    | (this', Ok a) => k a this'
    | (this', Err e) => (this', Err e)
    end.
Definition lift {A} (r : result A) : M A := fun this => (this, r).
Definition this_ : M ENR := fun this => (this, Ok this).

Declare Scope M_scope.
Delimit Scope M_scope with M.
Notation "x <- m ;; k" := (bind m (fun x => k))
  (at level 61, m at next level, right associativity) : M_scope.
Notation "m ;; k" := (bind m (fun _ => k))
  (at level 61, right associativity) : M_scope.

Local Open Scope M_scope.

Definition assign_signature (s : option Buffer) : M unit :=
  fun this => (mkENR (entries this) (seq this) s, Ok tt).
Definition increment_seq : M unit :=
  fun this => (mkENR (entries this) (seq this + 1)%N (signature this), Ok tt).
Definition super_set (k : ENRKey) (v : ENRValue) : M unit :=
  fun this => (mkENR (Map_set k v (entries this)) (seq this) (signature this), Ok tt).

(** [set(k, v)] *)
Definition set (k : ENRKey) (v : ENRValue) : M unit :=
  assign_signature None ;;
  increment_seq ;;
  super_set k v.

(** [this.get(k)], inherited from [Map]: [undefined] is [None]. *)
Definition get (k : ENRKey) : M (option ENRValue) :=
  fun this => (this, Ok (Map_get k (entries this))).

(** [get id]: reading [toString] of [undefined] is a [TypeError]. *)
Definition id : M string :=
  v <- get "id" ;;
  match v with
  | Some b => ret (Buffer_toString b)
  | None => throw TypeError
  end.

(** [get publicKey]: [undefined] when the record has no such entry. *)
Definition publicKey : M (option Buffer) :=
  i <- id ;;
  if String.eqb i "v4" then get "secp256k1" else throw ERR_INVALID_ID.

(** Modelled from the spec: [KeypairType] ([keypair/], not under [src/]),
    the kinds of key pair; the scheme v4 has the one kind. *)
Inductive KeypairType :=
| secp256k1.

(** [get keypairType] *)
Definition keypairType : M KeypairType :=
  i <- id ;;
  if String.eqb i "v4" then ret secp256k1 else throw ERR_INVALID_ID.

(** ** Endpoint views

    The two getters are one text up to the name of the transport, and so
    are the two setters; each pair is one definition here, taken at "udp"
    and at "tcp".  A getter hands a text to the [Multiaddr] constructor,
    which is of the package multiaddr: the getters are defined with the
    constructor, in the section [WithIdentityScheme]. *)

(** [n.toString()] and [n.toString(16)] of a non-negative integer. *)
Definition toString10 (n : N) : string :=
  DecimalString.NilZero.string_of_uint (N.to_uint n).
Definition toString16 (n : N) : string :=
  HexadecimalString.NilZero.string_of_uint (N.to_hex_uint n).

(** [Array.from(ip4).join(".")] *)
Definition ip4Str (ip4 : Buffer) : string :=
  String.concat "." (map (fun b => toString10 (Byte.to_N b)) ip4).

(** [Array.from(Uint16Array.from(ip6)).map((n) => n.toString(16)).join(":")]:
    [Uint16Array.from] makes one 16-bit element of every byte. *)
Definition ip6Str (ip6 : Buffer) : string :=
  String.concat ":" (map (fun b => toString16 (Byte.to_N b)) ip6).

Definition multiaddrText (ipProto ip transport : string) (port : N) : string :=
  ("/" ++ ipProto ++ "/" ++ ip ++ "/" ++ transport ++ "/" ++ toString10 port)%string.

(** A [Multiaddr] value, as the setters read it: a sequence of protocol
    segments, each with the code and the name of its protocol and the bytes
    of its value.  [protoNames()] lists the names, [tuples()] the pairs of
    code and value. *)
Record Segment := mkSegment {
  protoCode : N;
  protoName : string;
  segmentValue : Buffer
}.

Definition Multiaddr := list Segment.

Definition protoNames (multiaddr : Multiaddr) : list string :=
  map protoName multiaddr.
Definition tuples (multiaddr : Multiaddr) : list (N * Buffer) :=
  map (fun s => (protoCode s, segmentValue s)) multiaddr.

(** [a !== s] for an array element [a] that may be [undefined]. *)
Definition differs (a : option string) (s : string) : bool :=
  match a with
  | Some a => negb (String.eqb a s)
  | None => true
  end.

(** [xs[i]] followed by a property read: a [TypeError] on [undefined]. *)
Definition index {A} (xs : list A) (i : nat) : M A :=
  match nth_error xs i with
  | Some x => ret x
  | None => throw TypeError
  end.

Definition multiaddrSetter (transport : string) (multiaddr : option Multiaddr) : M unit :=
  match multiaddr with
  | None => ret tt
  | Some multiaddr =>
      let protoNames := protoNames multiaddr in
      if negb (length protoNames =? 2)%nat && differs (nth_error protoNames 1) transport
      then throw InvalidEndpoint
      else
        let tuples := tuples multiaddr in
        t0 <- index tuples 0 ;;
        if (fst t0 =? 4)%N then
          (* IPv4 *)
          set "ip" (snd t0) ;;
          t1 <- index tuples 1 ;;
          set transport (snd t1)
        else
          set "ip6" (snd t0) ;;
          t1 <- index tuples 1 ;;
          set (transport ++ "6")%string (snd t1)
  end.

Definition set_multiaddrUDP : option Multiaddr -> M unit := multiaddrSetter "udp".
Definition set_multiaddrTCP : option Multiaddr -> M unit := multiaddrSetter "tcp".

(** The validation the specification asks of a setter: exactly two
    segments, the second one the transport. *)
Definition validEndpoint (transport : string) (multiaddr : Multiaddr) : bool :=
  (length (protoNames multiaddr) =? 2)%nat
  && negb (differs (nth_error (protoNames multiaddr) 1) transport).

(** ** Instances of what the class takes from outside

    Used to run the class on concrete records. *)

(** A collation in the manner of the Unicode default one, which the
    JavaScript engines use for [localeCompare]: letters are compared
    without regard to case first, and on a tie the lower case letter comes
    first. *)
Definition toLower (c : ascii) : ascii :=
  let n := N_of_ascii c in
  if ((65 <=? n) && (n <=? 90))%N then ascii_of_N (n + 32) else c.

Fixpoint mapString (f : ascii -> ascii) (s : string) : string :=
  match s with
  | EmptyString => EmptyString
  | String c s' => String (f c) (mapString f s')
  end.

Definition caseFirstCompare (a b : string) : Z :=
  match String.compare (mapString toLower a) (mapString toLower b) with
  | Lt => (-1)%Z
  | Gt => 1%Z
  | Eq => Z.opp (bytewiseCompare a b)
  end.

(** A keyed checksum standing for a signature scheme: the public key is the
    private key, a signature is the key followed by the sum of the bytes
    signed. *)
Module Checksum.

Definition publicKey_of (privateKey : Buffer) : Buffer := privateKey.

Definition digest (data : Buffer) : byte :=
  byte_of_N (fold_left (fun acc b => (acc + Byte.to_N b)%N) data 0%N).

Definition sign (privateKey data : Buffer) : Buffer :=
  privateKey ++ [digest data].

Definition buffer_eqb (a b : Buffer) : bool :=
  if list_eq_dec Byte.byte_eq_dec a b then true else false.

Definition verify (publicKey : option Buffer) (data signature : Buffer) : bool :=
  match publicKey with
  | Some publicKey => buffer_eqb signature (sign publicKey data)
  | None => false
  end.

Definition nodeId (publicKey : option Buffer) : NodeId :=
  match publicKey with
  | Some publicKey => [digest publicKey]
  | None => []
  end.

End Checksum.

(** The base64url encoding without padding: three bytes are written as four
    characters of the alphabet, six bits each; reading skips the characters
    that are not of the alphabet. *)
Module Base64url.

Definition alphabet : string :=
  "ABCDEFGHIJKLMNOPQRSTUVWXYZabcdefghijklmnopqrstuvwxyz0123456789-_".

Definition charOf (s : N) : ascii :=
  match String.get (N.to_nat s) alphabet with
  | Some c => c
  | None => "A"%char
  end.

Definition sextetOf (c : ascii) : option N :=
  let n := N_of_ascii c in
  if ((65 <=? n) && (n <=? 90))%N then Some (n - 65)%N
  else if ((97 <=? n) && (n <=? 122))%N then Some (n - 71)%N
  else if ((48 <=? n) && (n <=? 57))%N then Some (n + 4)%N
  else if (n =? 45)%N then Some 62%N
  else if (n =? 95)%N then Some 63%N
  else None.

Fixpoint sextets (b : Buffer) : list N :=
  match b with
  | b0 :: b1 :: b2 :: rest =>
      let n0 := Byte.to_N b0 in
      let n1 := Byte.to_N b1 in
      let n2 := Byte.to_N b2 in
      (n0 / 4 :: (n0 mod 4) * 16 + n1 / 16 :: (n1 mod 16) * 4 + n2 / 64
         :: n2 mod 64 :: sextets rest)%N
  | [b0; b1] =>
      let n0 := Byte.to_N b0 in
      let n1 := Byte.to_N b1 in
      [n0 / 4; (n0 mod 4) * 16 + n1 / 16; (n1 mod 16) * 4]%N
  | [b0] =>
      let n0 := Byte.to_N b0 in
      [n0 / 4; (n0 mod 4) * 16]%N
  | [] => []
  end.

Definition encode (b : Buffer) : string :=
  string_of_list_ascii (map charOf (sextets b)).

Fixpoint bytes (s : list N) : Buffer :=
  match s with
  | s0 :: s1 :: s2 :: s3 :: rest =>
      byte_of_N (s0 * 4 + s1 / 16)
      :: byte_of_N ((s1 mod 16) * 16 + s2 / 4)
      :: byte_of_N ((s2 mod 4) * 64 + s3) :: bytes rest
  | [s0; s1; s2] =>
      [byte_of_N (s0 * 4 + s1 / 16); byte_of_N ((s1 mod 16) * 16 + s2 / 4)]
  | [s0; s1] => [byte_of_N (s0 * 4 + s1 / 16)]
  | _ => []
  end.

Fixpoint validSextets (cs : list ascii) : list N :=
  match cs with
  | [] => []
  | c :: cs' =>
      match sextetOf c with
      | Some s => s :: validSextets cs'
      | None => validSextets cs'
      end
  end.

Definition toBuffer (s : string) : Buffer :=
  bytes (validSextets (list_ascii_of_string s)).

End Base64url.

(** A signature scheme in which the signature is the private key followed
    by the message itself: unlike [Checksum], a signature made over items
    does not verify over the same items in another order. *)
Module Echo.

Definition publicKey_of (privateKey : Buffer) : Buffer := privateKey.

Definition sign (privateKey data : Buffer) : Buffer := privateKey ++ data.

Definition verify (publicKey : option Buffer) (data signature : Buffer) : bool :=
  match publicKey with
  | Some publicKey => Checksum.buffer_eqb signature (sign publicKey data)
  | None => false
  end.

End Echo.

(** A runtime to run [decode] on.  One replacement character for bytes that
    are not UTF-8; a zero for every element of an array made into a buffer;
    no integer for what is not a buffer; through a prototype that is a
    buffer, a property is created unless its key is an array index. *)
Module Runtime.

Definition utf8_lossy (b : Buffer) : string := Buffer_toString [xef; xbf; xbd].

Definition Buffer_from_array (items : list RLP.Decoded) : Buffer :=
  repeat x00 (length items).

Definition toBigIntBE_other (v : option RLP.Decoded) : option SequenceNumber := None.

Definition inheritedSet (p : Buffer) (k : ENRKey) : option bool :=
  match arrayIndex k with
  | Some _ => Some false
  | None => Some true
  end.

End Runtime.

(** A constructor of endpoints to run the getters on: it reads the texts
    /ip4/a.b.c.d/udp/p and /ip4/a.b.c.d/tcp/p, the numbers in decimal, and
    takes no other text. *)
Module TextMultiaddr.

Fixpoint split (sep : ascii) (s : string) : list string :=
  match s with
  | EmptyString => [EmptyString]
  | String c s' =>
      if Ascii.eqb c sep then EmptyString :: split sep s'
      else
        match split sep s' with
        | [] => [String c EmptyString]
        | w :: ws => String c w :: ws
        end
  end.

Definition number (s : string) : option N :=
  match DecimalString.NilZero.uint_of_string s with
  | Some d => Some (N.of_uint d)
  | None => None
  end.

Definition address (s : string) : option Buffer :=
  match map number (split "." s) with
  | [Some a; Some b; Some c; Some d] =>
      if ((a <? 256) && (b <? 256) && (c <? 256) && (d <? 256))%N
      then Some [byte_of_N a; byte_of_N b; byte_of_N c; byte_of_N d]
      else None
  | _ => None
  end.

Definition port (s : string) : option Buffer :=
  match number s with
  | Some p => if (p <? 65536)%N then Some [byte_of_N (p / 256); byte_of_N p] else None
  | None => None
  end.

Definition code (transport : string) : option N :=
  if String.eqb transport "udp" then Some 273%N
  else if String.eqb transport "tcp" then Some 6%N
  else None.

Definition from (text : string) : option Multiaddr :=
  match split "/" text with
  | [first; ip4; a; transport; p] =>
      if String.eqb first "" && String.eqb ip4 "ip4" then
        match address a, code transport, port p with
        | Some a, Some c, Some p =>
            Some [mkSegment 4 "ip4" a; mkSegment c transport p]
        | _, _, _ => None
        end
      else None
  | _ => None
  end.

End TextMultiaddr.

(** Records and a key to run the class on: a record with both an IPv4 and
    an IPv6 endpoint, and one too large to encode. *)
Definition samplePrivateKey : Buffer := [x2a].

Definition sampleRecord : ENR :=
  createV4 (Checksum.publicKey_of samplePrivateKey)
    [("ip", [xc0; x00; x02; x01]); ("udp", [x76; x5f]); ("tcp", [x76; x5f]);
     ("ip6", repeat x00 15 ++ [x01]); ("udp6", [x76; x60]); ("tcp6", [x76; x60])].

Definition largeRecord : ENR :=
  createV4 (Checksum.publicKey_of samplePrivateKey) [("blob", repeat x00 300)].

(** Items as they may come from the network: keys out of order, the key
    "udp" twice, and values that make the encoding larger than a record may
    be. *)
Definition unsortedItems : list (ENRKey * ENRValue) :=
  [("udp", [x76; x5f]); ("secp256k1", Checksum.publicKey_of samplePrivateKey);
   ("blob", repeat x00 300); ("id", Buffer_from "v4"); ("udp", [x76; x60])].


(** The encoding of a record of the scheme v4 with its pairs out of order,
    "secp256k1" before "id", signed under [Echo] over the items in that
    order. *)
Definition unsortedSignature : Buffer :=
  Echo.sign samplePrivateKey
    (RLP.encode
       (map RLP.IBuf
          [[x01]; Buffer_from "secp256k1"; Echo.publicKey_of samplePrivateKey;
           Buffer_from "id"; Buffer_from "v4"])).

Definition unsortedBytes : Buffer :=
  RLP.encode
    (map RLP.IBuf
       [unsortedSignature; [x01];
        Buffer_from "secp256k1"; Echo.publicKey_of samplePrivateKey;
        Buffer_from "id"; Buffer_from "v4"]).

Definition okValue (r : result Buffer) : Buffer :=
  match r with
  | Ok b => b
  | Err _ => []
  end.

(** ** Signing, encoding and decoding *)

Section WithIdentityScheme.

(** Modelled from the spec: the identity scheme [v4] ([v4.ts], not under
    [src/]): [sign(privateKey, message)], [verify(publicKey, message,
    signature)], which returns a boolean and never throws, and
    [nodeId(publicKey)].  The public key handed over is what
    [this.get("secp256k1")] returns, [undefined] included. *)
Variable v4_sign : Buffer -> Buffer -> Buffer.
Variable v4_verify : option Buffer -> Buffer -> Buffer -> bool.
Variable v4_nodeId : option Buffer -> NodeId.

(** Modelled from the spec: the public key of a private key, and the law
    the specification states for the scheme:
    [verify(publicKeyOf(privateKey), message, sign(privateKey, message))]
    is true. *)
Variable publicKeyOf : Buffer -> Buffer.

Definition sign_verify_law : Prop :=
  forall privateKey message : Buffer,
    v4_verify (Some (publicKeyOf privateKey)) message (v4_sign privateKey message) = true.

(** [a.localeCompare(b)] of the JavaScript runtime: negative, zero or
    positive. *)
Variable localeCompare : string -> string -> Z.

(** The constructor of the package multiaddr, which is not under [src/]
    and has no part in the specification: [Multiaddr(text)] is the endpoint
    the text names, and a throw when the text names none. *)
Variable Multiaddr_from : string -> option Multiaddr.

Definition newMultiaddr (text : string) : result Multiaddr :=
  match Multiaddr_from text with
  | Some multiaddr => Ok multiaddr
  | None => Err PackageError
  end.

(** [get multiaddrUDP] and [get multiaddrTCP] *)
Definition multiaddrGetter (transport : string) : M (option Multiaddr) :=
  (* First try IPv4 *)
  ip4 <- get "ip" ;;
  port4 <- get transport ;;
  match ip4, port4 with
  | Some ip4, Some port4 =>
      port <- lift (readUInt16BE port4) ;;
      multiaddr <- lift (newMultiaddr (multiaddrText "ip4" (ip4Str ip4) transport port)) ;;
      ret (Some multiaddr)
  | _, _ =>
      (* Then try IPv6 *)
      ip6 <- get "ip6" ;;
      port6 <- get (transport ++ "6")%string ;;
      match ip6, port6 with
      | Some ip6, Some port6 =>
          port <- lift (readUInt16BE port6) ;;
          multiaddr <- lift (newMultiaddr (multiaddrText "ip6" (ip6Str ip6) transport port)) ;;
          ret (Some multiaddr)
      | _, _ => ret None
      end
  end.

Definition multiaddrUDP : M (option Multiaddr) := multiaddrGetter "udp".
Definition multiaddrTCP : M (option Multiaddr) := multiaddrGetter "tcp".

(** [get nodeId] *)
Definition nodeId : M NodeId :=
  i <- id ;;
  if String.eqb i "v4" then pk <- publicKey ;; ret (v4_nodeId pk)
  else throw ERR_INVALID_ID.

(** [verify(data, signature)] *)
Definition verify (data signature : Buffer) : M bool :=
  i <- id ;;
  if String.eqb i "v4" then pk <- publicKey ;; ret (v4_verify pk data signature)
  else throw ERR_INVALID_ID.

(** [sign(data, privateKey)] *)
Definition sign (data privateKey : Buffer) : M Buffer :=
  i <- id ;;
  if String.eqb i "v4" then
    let s := v4_sign privateKey data in
    assign_signature (Some s) ;;
    ret s
  else throw ERR_INVALID_ID.

(** [Array.from(this.keys()).sort((a, b) => a.localeCompare(b))] *)
Definition sortedKeys (this : ENR) : list ENRKey :=
  Array_sort localeCompare (Map_keys (entries this)).

Definition valueItem (v : option ENRValue) : RLP.Input :=
  match v with
  | Some v => RLP.IBuf v
  | None => RLP.IUndefined
  end.

(** The array [content] of [encode] before a signature is put in front:
    [[Number(seq), k, v, k, v, ...]]. *)
Definition content (this : ENR) : list RLP.Input :=
  RLP.INum (Number (seq this))
  :: flat_map (fun k => [RLP.IStr k; valueItem (Map_get k (entries this))])
       (sortedKeys this).

(** [encode(privateKey?)] *)
Definition encode (privateKey : option Buffer) : M Buffer :=
  this <- this_ ;;
  (* sort keys and flatten into [k, v, k, v, ...] *)
  let content := content this in
  s <- match privateKey with
       | Some privateKey => sign (RLP.encode content) privateKey
       | None =>
           match signature this with
           | None => throw ERR_NO_SIGNATURE
           | Some s => ret s
           end
       end ;;
  let encoded := RLP.encode (RLP.IBuf s :: content) in
  if (length encoded <? MAX_RECORD_SIZE)%nat then ret encoded
  else throw RecordTooLarge.

(** ** [decode] and the items it receives

    [RLP.decode] returns a byte string or an array of items, and [decode]
    casts the array to [Buffer[]] without a test: an item of it may be an
    array itself, and a key may be any bytes.  Where the text of [decode]
    then takes the JavaScript runtime, or a package, beyond the byte
    strings and the keys it was written for, what they do is a variable of
    the section. *)

(** [buf.toString()] of bytes that are not UTF-8: the decoder of the runtime
    puts replacement characters where it cannot read. *)
Variable utf8_lossy : Buffer -> string.

(** [Buffer.from(array)]: one byte for each element of the array, the
    element converted to a number by the runtime. *)
Variable Buffer_from_array : list RLP.Decoded -> Buffer.

(** [toBigIntBE(v)], of the package bigint-buffer, on a value that is not a
    buffer (an array, or [undefined]): an integer, or a throw. *)
Variable toBigIntBE_other : option RLP.Decoded -> option SequenceNumber.

(** [obj[k] = v] for a key that [obj] does not hold, when the prototype of
    [obj] is a buffer [p]: the assignment goes through the buffer, a typed
    array.  With the key (an index of the buffer or not, the name of a
    property the buffer inherits) and with the runtime, it creates the
    property ([Some true]), does nothing ([Some false]) or throws a
    [TypeError] ([None]). *)
Variable inheritedSet : Buffer -> ENRKey -> option bool.

(** [buf.toString()] *)
Definition utf8_toString (b : Buffer) : string :=
  if utf8_valid b then Buffer_toString b else utf8_lossy b.

(** [kvs[i].toString()]: of a buffer, the string it holds; of an array,
    [Array.prototype.toString], the strings of its elements joined by
    commas. *)
Fixpoint Item_toString (item : RLP.Decoded) : string :=
  match item with
  | RLP.DBuffer b => utf8_toString b
  | RLP.DList items => String.concat "," (map Item_toString items)
  end.

(** [Buffer.from(kvs[i + 1])]: of a buffer, a copy of it. *)
Definition Buffer_from_item (item : RLP.Decoded) : Buffer :=
  match item with
  | RLP.DBuffer b => b
  | RLP.DList items => Buffer_from_array items
  end.

(** [obj[k] = v] on a plain object, [v] a buffer.  The key __proto__ names
    the accessor of [Object.prototype]: the assignment makes the buffer the
    prototype of the object and creates no property.  Any other key that
    the object holds gets the value; one that it does not hold is created
    at the end, unless the prototype is a buffer ([inheritedSet]). *)
Definition Object_set (k : ENRKey) (v : ENRValue) (obj : JSObject) : result JSObject :=
  if String.eqb k "__proto__" then Ok (mkObject (own obj) (Some v))
  else
    match Map_get k (own obj), proto obj with
    | None, Some p =>
        match inheritedSet p k with
        | Some true => Ok (mkObject (Map_set k v (own obj)) (proto obj))
        | Some false => Ok obj
        | None => Err TypeError
        end
    | _, _ => Ok (mkObject (Map_set k v (own obj)) (proto obj))
    end.

(** The loop of [decode] over [kvs]: [obj[kvs[i].toString()] =
    Buffer.from(kvs[i + 1])], two items at a time ([Buffer.from(undefined)]
    is a [TypeError]). *)
Fixpoint assignEntries (kvs : list RLP.Decoded) (obj : JSObject) : result JSObject :=
  match kvs with
  | [] => Ok obj
  | k :: v :: kvs' =>
      (obj' <- Object_set (Item_toString k) (Buffer_from_item v) obj ;;
       assignEntries kvs' obj')%result
  | [_] => Err TypeError
  end.

(** [toBigIntBE(seq)] *)
Definition toBigIntBE_item (seq : option RLP.Decoded) : result SequenceNumber :=
  match seq with
  | Some (RLP.DBuffer b) => Ok (toBigIntBE b)
  | _ =>
      match toBigIntBE_other seq with
      | Some n => Ok n
      | None => Err PackageError
      end
  end.

(** [enr.verify(data, signature)] for the item received as signature.
    Modelled from the spec: the [verify] of the scheme "returns false on
    malformed signature input rather than raising"; a signature that is not
    a byte string is malformed. *)
Definition verifyItem (data : Buffer) (signature : option RLP.Decoded) : M bool :=
  match signature with
  | Some (RLP.DBuffer s) => verify data s
  | _ =>
      i <- id ;;
      if String.eqb i "v4" then pk <- publicKey ;; ret false
      else throw ERR_INVALID_ID
  end.

(** The signature of the candidate record.  An item that is not a byte
    string has no place in the field of the model: the candidate that holds
    it is never returned, [verifyItem] answering false or throwing. *)
Definition signatureOf (signature : option RLP.Decoded) : option Buffer :=
  match signature with
  | Some (RLP.DBuffer s) => Some s
  | _ => None
  end.

(** [ENR.decode(encoded)] *)
Definition decode (encoded : Buffer) : result ENR :=
  (decoded <- RLP.decode encoded ;;
   match decoded with
   | RLP.DBuffer _ => Err MalformedRecord
   | RLP.DList decoded =>
       if negb (Nat.even (length decoded)) then Err MalformedRecord
       else
         let signature := nth_error decoded 0 in
         let seq := nth_error decoded 1 in
         let kvs := skipn 2 decoded in
         obj <- assignEntries kvs emptyObject ;;
         seq' <- toBigIntBE_item seq ;;
         let enr := new_ENR (Object_entries obj) seq' (signatureOf signature) in
         verified <-
           snd (verifyItem (RLP.encodeArray (seq :: map Some kvs)) signature enr) ;;
         if verified then Ok enr else Err InvalidSignature
   end)%result.

(** The package base64url, not under [src/], as the class uses it:
    [base64url.encode(buffer)] and [base64url.toBuffer(string)]; the second
    reads back what the first wrote. *)
Variable base64url_encode : Buffer -> string.
Variable base64url_toBuffer : string -> Buffer.

Definition base64url_law : Prop :=
  forall b : Buffer, base64url_toBuffer (base64url_encode b) = b.

(** [s.slice(n)]: the string without its first [n] characters. *)
Fixpoint slice (n : nat) (s : string) : string :=
  match n, s with
  | S n', String _ s' => slice n' s'
  | _, _ => s
  end.

(** [ENR.decodeTxt(encoded)]; the assertion "string encoded ENR must start
    with 'enr:'" is a [MalformedRecord]. *)
Definition decodeTxt (encoded : string) : result ENR :=
  if String.prefix "enr:" encoded
  then decode (base64url_toBuffer (slice 4 encoded))
  else Err MalformedRecord.

(** [encodeTxt(privateKey)] *)
Definition encodeTxt (privateKey : Buffer) : M string :=
  encoded <- encode (Some privateKey) ;;
  ret ("enr:" ++ base64url_encode encoded)%string.

(** The value of a getter on its IPv4 branch and on its IPv6 branch: what
    the constructor makes of the text of the endpoint, or the [RangeError]
    of a port entry too short to read. *)
Definition endpoint4 (transport : string) (ip4 port4 : Buffer) : result (option Multiaddr) :=
  (port <- readUInt16BE port4 ;;
   multiaddr <- newMultiaddr (multiaddrText "ip4" (ip4Str ip4) transport port) ;;
   Ok (Some multiaddr))%result.

Definition endpoint6 (transport : string) (ip6 port6 : Buffer) : result (option Multiaddr) :=
  (port <- readUInt16BE port6 ;;
   multiaddr <- newMultiaddr (multiaddrText "ip6" (ip6Str ip6) transport port) ;;
   Ok (Some multiaddr))%result.

(** The payload of a list: the encodings of its byte strings, one after the
    other. *)
Definition encodeItems (bs : list Buffer) : Buffer :=
  concat (map RLP.encodeBuffer bs).

(** The value [encode] writes after a key, as bytes. *)
Definition valueBytes (this : ENR) (k : ENRKey) : Buffer :=
  RLP.toBuffer (valueItem (Map_get k (entries this))).

Definition keyValueBytes (this : ENR) (ks : list ENRKey) : list Buffer :=
  flat_map (fun k => [Buffer_from k; valueBytes this k]) ks.

(** The items [[k, v, k, v, ...]] of a list of pairs, as bytes. *)
Definition keyValueItems (obj : list (ENRKey * ENRValue)) : list Buffer :=
  flat_map (fun kv => [Buffer_from (fst kv); snd kv]) obj.

(** The sequence number [decode] reads where [encode] wrote [Number(seq)]. *)
Definition decodedSeq (n : SequenceNumber) : SequenceNumber :=
  toBigIntBE (RLP.toBuffer (RLP.INum (Number n))).

(** * Properties *)

(** ** Bytes and big-endian integers *)

Lemma to_N_byte_of_N (n : N) : Byte.to_N (byte_of_N n) = (n mod 256)%N.
Proof.
  unfold byte_of_N.
  destruct (Byte.of_N (n mod 256)) as [b |] eqn:E.
  - now apply Byte.to_of_N.
  - apply Byte.of_N_None_iff in E.
    pose proof (N.mod_upper_bound n 256). lia.
Qed.

Lemma to_N_byte_of_N_small (n : N) : (n < 256)%N -> Byte.to_N (byte_of_N n) = n.
Proof. intros H. rewrite to_N_byte_of_N. now apply N.mod_small. Qed.

Lemma byte_of_N_nonzero (n : N) : (0 < n < 256)%N -> byte_of_N n <> x00.
Proof.
  intros H E. apply (f_equal Byte.to_N) in E.
  rewrite to_N_byte_of_N_small in E by lia. simpl in E. lia.
Qed.

Lemma fold_left_be (l : Buffer) (init : N) :
  fold_left (fun acc b => (acc * 256 + Byte.to_N b)%N) l init =
    (init * 256 ^ N.of_nat (length l) + toBigIntBE l)%N.
Proof.
  unfold toBigIntBE. revert init.
  induction l as [| b l IH]; intros init; simpl fold_left.
  - simpl. lia.
  - rewrite IH, (IH (Byte.to_N b)).
    replace (N.of_nat (length (b :: l))) with (N.succ (N.of_nat (length l)))
      by (simpl length; lia).
    rewrite N.pow_succ_r'. lia.
Qed.

Lemma toBigIntBE_cons (b : byte) (l : Buffer) :
  toBigIntBE (b :: l) = (Byte.to_N b * 256 ^ N.of_nat (length l) + toBigIntBE l)%N.
Proof.
  unfold toBigIntBE at 1. simpl fold_left. rewrite fold_left_be. lia.
Qed.

Lemma div256_lt (n : N) (fuel : nat) :
  (n < 2 ^ N.of_nat (S fuel))%N -> (n / 256 < 2 ^ N.of_nat fuel)%N.
Proof.
  intros H.
  replace (N.of_nat (S fuel)) with (N.succ (N.of_nat fuel)) in H by lia.
  rewrite N.pow_succ_r' in H.
  apply N.Div0.div_lt_upper_bound.
  assert (0 < 2 ^ N.of_nat fuel)%N by (apply N.neq_0_lt_0, N.pow_nonzero; lia).
  lia.
Qed.

Lemma toBigIntBE_be_bytes (fuel : nat) (n : N) (acc : Buffer) :
  (n < 2 ^ N.of_nat fuel)%N ->
  toBigIntBE (be_bytes fuel n acc) =
    (n * 256 ^ N.of_nat (length acc) + toBigIntBE acc)%N.
Proof.
  revert n acc.
  induction fuel as [| fuel IH]; intros n acc Hn.
  - simpl in *. assert (n = 0%N) by lia. subst. simpl. reflexivity.
  - cbn [be_bytes].
    destruct (N.eqb_spec n 0) as [-> | Hnz]; [reflexivity |].
    rewrite IH by now apply div256_lt.
    rewrite toBigIntBE_cons, to_N_byte_of_N.
    replace (N.of_nat (length (byte_of_N n :: acc)))
      with (N.succ (N.of_nat (length acc))) by (simpl length; lia).
    rewrite N.pow_succ_r'.
    pose proof (N.div_mod n 256 ltac:(lia)) as Hdm.
    set (p := (256 ^ N.of_nat (length acc))%N).
    set (d := (n / 256)%N) in *. set (m := (n mod 256)%N) in *.
    clearbody d m p. rewrite Hdm. ring.
Qed.

Lemma toBigIntBE_intToBuffer (n : N) : toBigIntBE (intToBuffer n) = n.
Proof.
  unfold intToBuffer.
  rewrite toBigIntBE_be_bytes.
  - change (toBigIntBE []) with 0%N. change (N.of_nat (length (@nil byte))) with 0%N.
    rewrite N.pow_0_r. lia.
  - rewrite N2Nat.id. apply N.size_gt.
Qed.

Lemma be_bytes_head (fuel : nat) (n : N) (acc : Buffer) :
  (n < 2 ^ N.of_nat fuel)%N -> (0 < n)%N ->
  exists b rest, be_bytes fuel n acc = b :: rest /\ b <> x00.
Proof.
  revert n acc.
  induction fuel as [| fuel IH]; intros n acc Hn Hpos.
  - simpl in Hn. lia.
  - cbn [be_bytes].
    destruct (N.eqb_spec n 0) as [-> | _]; [lia |].
    destruct (N.eq_dec (n / 256) 0) as [Hz | Hnz].
    + exists (byte_of_N n), acc. split.
      * rewrite Hz. destruct fuel; reflexivity.
      * apply byte_of_N_nonzero.
        pose proof (proj1 (N.div_small_iff n 256 ltac:(lia)) Hz). lia.
    + apply IH; [now apply div256_lt | now apply N.neq_0_lt_0].
Qed.

Lemma be_bytes_length (fuel : nat) (n : N) (acc : Buffer) (k : nat) :
  (n < 256 ^ N.of_nat k)%N ->
  length (be_bytes fuel n acc) <= k + length acc.
Proof.
  revert n acc k.
  induction fuel as [| fuel IH]; intros n acc k Hn; cbn [be_bytes]; [lia |].
  destruct (N.eqb_spec n 0) as [-> | Hnz]; [lia |].
  destruct k as [| k]; [simpl in Hn; lia |].
  specialize (IH (n / 256)%N (byte_of_N n :: acc) k).
  simpl length in IH.
  replace (N.of_nat (S k)) with (N.succ (N.of_nat k)) in Hn by lia.
  rewrite N.pow_succ_r' in Hn.
  assert (n / 256 < 256 ^ N.of_nat k)%N
    by (apply N.Div0.div_lt_upper_bound; lia).
  lia.
Qed.

(** The length bytes of a long header: between one and eight of them, the
    first one not zero, and they read back as the length. *)
Lemma intToBuffer_length (len : nat) :
  (0 < N.of_nat len < 2 ^ 64)%N ->
  exists b rest,
    intToBuffer (N.of_nat len) = b :: rest
    /\ b <> x00
    /\ length rest < 8
    /\ toBigIntBE (b :: rest) = N.of_nat len.
Proof.
  intros [Hpos Hlt].
  destruct (be_bytes_head (N.to_nat (N.size (N.of_nat len))) (N.of_nat len) [])
    as (b & rest & E & Hb); [rewrite N2Nat.id; apply N.size_gt | assumption |].
  exists b, rest. unfold intToBuffer. rewrite E.
  repeat split; [assumption | |].
  - pose proof (be_bytes_length (N.to_nat (N.size (N.of_nat len))) (N.of_nat len) [] 8) as L.
    rewrite E in L. simpl length in L.
    assert (N.of_nat len < 256 ^ N.of_nat 8)%N by (simpl; lia).
    specialize (L H). lia.
  - rewrite <- E. apply toBigIntBE_intToBuffer.
Qed.

(** ** The codec reads back what it writes *)

Lemma take_app (b rest : Buffer) :
  RLP.take (length b) (b ++ rest) = Ok (b, rest).
Proof.
  unfold RLP.take.
  rewrite length_app.
  destruct (Nat.ltb_spec (length b + length rest) (length b)); [lia |].
  rewrite firstn_app, skipn_app, Nat.sub_diag, firstn_all, skipn_all.
  simpl. now rewrite app_nil_r.
Qed.

Lemma parseLength_intToBuffer (len : nat) :
  (0 < N.of_nat len < 2 ^ 64)%N ->
  RLP.parseLength (intToBuffer (N.of_nat len)) = Ok len.
Proof.
  intros H.
  destruct (intToBuffer_length len H) as (b & rest & E & Hb & _ & Hv).
  rewrite E. unfold RLP.parseLength.
  rewrite Hv, Nat2N.id.
  destruct b; try reflexivity. congruence.
Qed.

Lemma encodeLength_short (len : nat) (offset : N) :
  len < 56 -> RLP.encodeLength len offset = [byte_of_N (N.of_nat len + offset)].
Proof.
  intros H. unfold RLP.encodeLength.
  now destruct (Nat.ltb_spec len 56); [| lia].
Qed.

Lemma encodeLength_long (len : nat) (offset : N) :
  56 <= len -> (N.of_nat len < 2 ^ 64)%N ->
  exists lenBytes,
    RLP.encodeLength len offset =
      byte_of_N (offset + 55 + N.of_nat (length lenBytes)) :: lenBytes
    /\ 1 <= length lenBytes <= 8
    /\ RLP.parseLength lenBytes = Ok len.
Proof.
  intros H Hlt. unfold RLP.encodeLength.
  destruct (Nat.ltb_spec len 56); [lia |].
  exists (intToBuffer (N.of_nat len)).
  split; [reflexivity |].
  split; [| apply parseLength_intToBuffer; lia].
  destruct (intToBuffer_length len) as (b & rest & E & _ & Hl & _); [lia |].
  rewrite E. simpl length. lia.
Qed.

(** What [_decode] does with a header byte [first] of value [fb]. *)
Lemma _decode_short_string (fuel : nat) (first : byte) (b rest : Buffer) :
  Byte.to_N first = (N.of_nat (length b) + 128)%N -> length b < 56 ->
  RLP._decode (S fuel) (first :: b ++ rest) = Ok (RLP.DBuffer b, rest).
Proof.
  intros Hfb Hlen. cbn [RLP._decode]. rewrite Hfb. cbv zeta.
  destruct (N.leb_spec (N.of_nat (length b) + 128) 0x7f); [lia |].
  destruct (N.leb_spec (N.of_nat (length b) + 128) 0xb7); [| lia].
  replace (N.to_nat (N.of_nat (length b) + 128 - 0x80)) with (length b) by lia.
  now rewrite take_app.
Qed.

Lemma _decode_long_string (fuel : nat) (first : byte) (lenBytes b rest : Buffer) :
  Byte.to_N first = (128 + 55 + N.of_nat (length lenBytes))%N ->
  1 <= length lenBytes <= 8 ->
  RLP.parseLength lenBytes = Ok (length b) ->
  RLP._decode (S fuel) (first :: lenBytes ++ b ++ rest) = Ok (RLP.DBuffer b, rest).
Proof.
  intros Hfb Hll Hparse. cbn [RLP._decode]. rewrite Hfb. cbv zeta.
  destruct (N.leb_spec (128 + 55 + N.of_nat (length lenBytes)) 0x7f); [lia |].
  destruct (N.leb_spec (128 + 55 + N.of_nat (length lenBytes)) 0xb7); [lia |].
  destruct (N.leb_spec (128 + 55 + N.of_nat (length lenBytes)) 0xbf); [| lia].
  replace (N.to_nat (128 + 55 + N.of_nat (length lenBytes) - 0xb7))
    with (length lenBytes) by lia.
  rewrite take_app. cbn [result_bind]. rewrite Hparse. cbn [result_bind].
  now rewrite take_app.
Qed.

Lemma _decode_encodeBuffer (fuel : nat) (b rest : Buffer) :
  (N.of_nat (length b) < 2 ^ 64)%N ->
  RLP._decode (S fuel) (RLP.encodeBuffer b ++ rest) = Ok (RLP.DBuffer b, rest).
Proof.
  intros Hlt.
  assert (Hgen : RLP._decode (S fuel) ((RLP.encodeLength (length b) 128 ++ b) ++ rest)
                 = Ok (RLP.DBuffer b, rest)).
  { destruct (Nat.lt_ge_cases (length b) 56) as [Hshort | Hlong].
    - rewrite encodeLength_short by assumption.
      cbn [app]. apply _decode_short_string; [| assumption].
      apply to_N_byte_of_N_small. lia.
    - destruct (encodeLength_long (length b) 128 Hlong Hlt) as (lenBytes & -> & Hll & Hp).
      cbn [app]. rewrite <- app_assoc.
      apply _decode_long_string; [| assumption | assumption].
      apply to_N_byte_of_N_small. lia. }
  unfold RLP.encodeBuffer.
  destruct b as [| x [| y b']]; try exact Hgen.
  destruct (N.ltb_spec (Byte.to_N x) 128) as [Hx | Hx]; [| exact Hgen].
  cbn [app RLP._decode]. cbv zeta.
  destruct (N.leb_spec (Byte.to_N x) 0x7f); [reflexivity | lia].
Qed.

Lemma encodeBuffer_length (b : Buffer) : 1 <= length (RLP.encodeBuffer b).
Proof.
  assert (H : 1 <= length (RLP.encodeLength (length b) 128 ++ b)).
  { unfold RLP.encodeLength. destruct (length b <? 56)%nat; simpl; lia. }
  unfold RLP.encodeBuffer.
  destruct b as [| x [| y b']]; try exact H.
  destruct (Byte.to_N x <? 128)%N; [simpl; lia | exact H].
Qed.

Lemma encodeItems_length (bs : list Buffer) : length bs <= length (encodeItems bs).
Proof.
  unfold encodeItems.
  induction bs as [| b bs IH]; simpl; [lia |].
  rewrite length_app. pose proof (encodeBuffer_length b). lia.
Qed.

Lemma decodeItems_nonempty (fuel : nat) (x : byte) (l : Buffer) :
  RLP.decodeItems (S fuel) (x :: l) =
    result_bind (RLP._decode fuel (x :: l)) (fun p =>
      result_bind (RLP.decodeItems fuel (snd p)) (fun ds => Ok (fst p :: ds))).
Proof.
  cbn [RLP.decodeItems]. destruct (RLP._decode fuel (x :: l)) as [[d r] |]; reflexivity.
Qed.

Lemma decodeItems_encodeItems (bs : list Buffer) (fuel : nat) :
  Forall (fun b => (N.of_nat (length b) < 2 ^ 64)%N) bs ->
  length bs < fuel ->
  RLP.decodeItems fuel (encodeItems bs) = Ok (map RLP.DBuffer bs).
Proof.
  intros Hall. revert fuel.
  induction Hall as [| b bs Hb Hbs IH]; intros fuel Hfuel.
  - destruct fuel; [lia | reflexivity].
  - destruct fuel as [| [| fuel]]; simpl in Hfuel; try lia.
    unfold encodeItems; cbn [map concat]. fold (encodeItems bs).
    pose proof (encodeBuffer_length b) as Hne.
    destruct (RLP.encodeBuffer b ++ encodeItems bs) as [| x l] eqn:E.
    { apply (f_equal (@length _)) in E. rewrite length_app in E. simpl in E. lia. }
    rewrite decodeItems_nonempty, <- E, (_decode_encodeBuffer fuel b _ Hb).
    cbn [result_bind fst snd].
    rewrite IH by lia. reflexivity.
Qed.

Lemma _decode_short_list (fuel : nat) (first : byte) (payload rest : Buffer) :
  Byte.to_N first = (N.of_nat (length payload) + 192)%N -> length payload < 56 ->
  RLP._decode (S fuel) (first :: payload ++ rest) =
    result_bind (RLP.decodeItems fuel payload) (fun items => Ok (RLP.DList items, rest)).
Proof.
  intros Hfb Hlen. cbn [RLP._decode]. rewrite Hfb. cbv zeta.
  destruct (N.leb_spec (N.of_nat (length payload) + 192) 0x7f); [lia |].
  destruct (N.leb_spec (N.of_nat (length payload) + 192) 0xb7); [lia |].
  destruct (N.leb_spec (N.of_nat (length payload) + 192) 0xbf); [lia |].
  destruct (N.leb_spec (N.of_nat (length payload) + 192) 0xf7); [| lia].
  replace (N.to_nat (N.of_nat (length payload) + 192 - 0xc0)) with (length payload) by lia.
  now rewrite take_app.
Qed.

Lemma _decode_long_list (fuel : nat) (first : byte) (lenBytes payload rest : Buffer) :
  Byte.to_N first = (192 + 55 + N.of_nat (length lenBytes))%N ->
  1 <= length lenBytes <= 8 ->
  RLP.parseLength lenBytes = Ok (length payload) ->
  RLP._decode (S fuel) (first :: lenBytes ++ payload ++ rest) =
    result_bind (RLP.decodeItems fuel payload) (fun items => Ok (RLP.DList items, rest)).
Proof.
  intros Hfb Hll Hparse. cbn [RLP._decode]. rewrite Hfb. cbv zeta.
  destruct (N.leb_spec (192 + 55 + N.of_nat (length lenBytes)) 0x7f); [lia |].
  destruct (N.leb_spec (192 + 55 + N.of_nat (length lenBytes)) 0xb7); [lia |].
  destruct (N.leb_spec (192 + 55 + N.of_nat (length lenBytes)) 0xbf); [lia |].
  destruct (N.leb_spec (192 + 55 + N.of_nat (length lenBytes)) 0xf7); [lia |].
  replace (N.to_nat (192 + 55 + N.of_nat (length lenBytes) - 0xf7))
    with (length lenBytes) by lia.
  rewrite take_app. cbn [result_bind]. rewrite Hparse. cbn [result_bind].
  now rewrite take_app.
Qed.

Lemma encodeBuffer_contains (b : Buffer) : length b <= length (RLP.encodeBuffer b).
Proof.
  assert (H : length b <= length (RLP.encodeLength (length b) 128 ++ b))
    by (rewrite length_app; lia).
  unfold RLP.encodeBuffer.
  destruct b as [| x [| y b']]; try exact H.
  destruct (Byte.to_N x <? 128)%N; [simpl; lia | exact H].
Qed.

Lemma encodeItems_bound (bs : list Buffer) :
  Forall (fun b => length b <= length (encodeItems bs)) bs.
Proof.
  unfold encodeItems.
  induction bs as [| b bs IH]; constructor; cbn [map concat]; rewrite length_app.
  - pose proof (encodeBuffer_contains b). lia.
  - eapply Forall_impl; [| exact IH]. cbv beta. intros. lia.
Qed.

Lemma encode_as_items (input : list RLP.Input) :
  RLP.encode input =
    RLP.encodeLength (length (encodeItems (map RLP.toBuffer input))) 192
    ++ encodeItems (map RLP.toBuffer input).
Proof. unfold RLP.encode, encodeItems. now rewrite map_map. Qed.

(** The codec reads back the byte strings of the array it wrote. *)
Lemma decode_encode_items (input : list RLP.Input) :
  (N.of_nat (length (RLP.encode input)) < 2 ^ 64)%N ->
  RLP.decode (RLP.encode input) =
    Ok (RLP.DList (map RLP.DBuffer (map RLP.toBuffer input))).
Proof.
  rewrite encode_as_items.
  set (bs := map RLP.toBuffer input). set (payload := encodeItems bs).
  intros Hsize. rewrite length_app in Hsize.
  assert (Hitems : Forall (fun b => (N.of_nat (length b) < 2 ^ 64)%N) bs).
  { eapply Forall_impl; [| exact (encodeItems_bound bs)].
    cbv beta. fold payload. intros. lia. }
  pose proof (encodeItems_length bs) as Hcount. fold payload in Hcount.
  unfold RLP.decode.
  set (whole := RLP.encodeLength (length payload) 192 ++ payload).
  assert (Hdec : forall fuel, length bs < fuel ->
            RLP._decode (S fuel) whole = Ok (RLP.DList (map RLP.DBuffer bs), [])).
  { intros fuel Hfuel. unfold whole.
    rewrite <- (app_nil_r payload) at 2.
    destruct (Nat.lt_ge_cases (length payload) 56) as [Hshort | Hlong].
    - rewrite encodeLength_short by assumption. cbn [app].
      rewrite _decode_short_list;
        [| apply to_N_byte_of_N_small; lia | assumption].
      unfold payload. now rewrite decodeItems_encodeItems.
    - destruct (encodeLength_long (length payload) 192 Hlong ltac:(lia))
        as (lenBytes & -> & Hll & Hp).
      cbn [app].
      rewrite _decode_long_list;
        [| apply to_N_byte_of_N_small; lia | assumption | assumption].
      unfold payload. now rewrite decodeItems_encodeItems. }
  assert (Hwhole : length payload <= length whole)
    by (unfold whole; rewrite length_app; lia).
  replace (2 * length whole + 2) with (S (2 * length whole + 1)) by lia.
  rewrite Hdec by lia. reflexivity.
Qed.

(** ** The map *)

Lemma Map_get_set_same (k : ENRKey) (v : ENRValue) (m : JSMap) :
  Map_get k (Map_set k v m) = Some v.
Proof.
  induction m as [| [k' v'] m IH]; simpl.
  - now rewrite String.eqb_refl.
  - destruct (String.eqb k' k) eqn:E; simpl.
    + now rewrite String.eqb_refl.
    + now rewrite E.
Qed.

Lemma Map_get_set_other (k k' : ENRKey) (v : ENRValue) (m : JSMap) :
  k' <> k -> Map_get k' (Map_set k v m) = Map_get k' m.
Proof.
  intros Hne. induction m as [| [k0 v0] m IH]; simpl.
  - destruct (String.eqb_spec k k'); congruence.
  - destruct (String.eqb_spec k0 k) as [-> | Hk0]; simpl.
    + destruct (String.eqb_spec k k'); congruence.
    + now rewrite IH.
Qed.

Lemma Map_get_Map_set (k k' : ENRKey) (v : ENRValue) (m : JSMap) :
  Map_get k' (Map_set k v m) = if String.eqb k k' then Some v else Map_get k' m.
Proof.
  destruct (String.eqb_spec k k') as [<- | Hne].
  - apply Map_get_set_same.
  - apply Map_get_set_other. congruence.
Qed.

Lemma Map_get_fold_last (k : ENRKey) (kvs : list (ENRKey * ENRValue)) (m : JSMap) :
  Map_get k (fold_left (fun m kv => Map_set (fst kv) (snd kv) m) kvs m) =
    match lastValue k kvs with
    | Some v => Some v
    | None => Map_get k m
    end.
Proof.
  revert m.
  induction kvs as [| [k' v] kvs IH]; intros m; [reflexivity |].
  cbn [fold_left fst snd lastValue]. rewrite IH, Map_get_Map_set.
  destruct (lastValue k kvs); [reflexivity |].
  destruct (String.eqb k' k); reflexivity.
Qed.

Lemma Map_get_Map_of_entries (k : ENRKey) (kvs : list (ENRKey * ENRValue)) :
  Map_get k (Map_of_entries kvs) = lastValue k kvs.
Proof.
  unfold Map_of_entries. rewrite Map_get_fold_last.
  now destruct (lastValue k kvs).
Qed.

Lemma Map_get_keys (k : ENRKey) (m : JSMap) :
  match Map_get k m with
  | Some _ => In k (Map_keys m)
  | None => ~ In k (Map_keys m)
  end.
Proof.
  induction m as [| [k' v'] m IH]; simpl; [intros [] |].
  destruct (String.eqb_spec k' k) as [-> | Hne]; [now left |].
  destruct (Map_get k m).
  - now right.
  - intros [Heq | Hin]; [exact (Hne Heq) | exact (IH Hin)].
Qed.

Lemma Map_set_keys (k : ENRKey) (v : ENRValue) (m : JSMap) :
  Map_keys (Map_set k v m) =
    if in_dec string_dec k (Map_keys m) then Map_keys m else Map_keys m ++ [k].
Proof.
  induction m as [| [k' v'] m IH]; [reflexivity |].
  cbn [Map_set Map_keys map fst].
  destruct (String.eqb_spec k' k) as [-> | Hne].
  - cbn [map fst].
    destruct (in_dec string_dec k (k :: map fst m)) as [_ | Hn];
      [reflexivity | exfalso; apply Hn; now left].
  - cbn [map fst]. fold (Map_keys (Map_set k v m)). rewrite IH.
    fold (Map_keys m).
    destruct (in_dec string_dec k (Map_keys m)) as [Hin | Hnin];
      destruct (in_dec string_dec k (k' :: Map_keys m)) as [Hin' | Hnin'];
      try reflexivity.
    + exfalso. apply Hnin'. now right.
    + destruct Hin' as [Heq | Hin']; [congruence | contradiction].
Qed.

Lemma Map_set_NoDup (k : ENRKey) (v : ENRValue) (m : JSMap) :
  NoDup (Map_keys m) -> NoDup (Map_keys (Map_set k v m)).
Proof.
  intros H. rewrite Map_set_keys.
  destruct (in_dec string_dec k (Map_keys m)) as [_ | Hnin]; [exact H |].
  apply NoDup_app; [exact H | repeat constructor; intros [] |].
  intros x Hx [<- | []]. contradiction.
Qed.

Lemma Map_of_entries_NoDup (kvs : list (ENRKey * ENRValue)) :
  NoDup (Map_keys (Map_of_entries kvs)).
Proof.
  unfold Map_of_entries.
  assert (H : forall m, NoDup (Map_keys m) ->
            NoDup (Map_keys (fold_left (fun m kv => Map_set (fst kv) (snd kv) m) kvs m))).
  { induction kvs as [| kv kvs IH]; intros m Hm; [exact Hm |].
    cbn [fold_left]. apply IH. now apply Map_set_NoDup. }
  apply H. constructor.
Qed.

Lemma Map_get_In (k : ENRKey) (v : ENRValue) (m : JSMap) :
  NoDup (Map_keys m) -> In (k, v) m -> Map_get k m = Some v.
Proof.
  induction m as [| [k' v'] m IH]; cbn [Map_keys map fst Map_get In];
    intros Hnodup Hin; [contradiction |].
  inversion Hnodup as [| ? ? Hnotin Hrest]; subst.
  destruct Hin as [Heq | Hin].
  - injection Heq as -> ->. now rewrite String.eqb_refl.
  - destruct (String.eqb_spec k' k) as [-> | _]; [| now apply IH].
    exfalso. apply Hnotin. apply (in_map fst) in Hin. exact Hin.
Qed.

Lemma Map_get_Some_In (k : ENRKey) (v : ENRValue) (m : JSMap) :
  Map_get k m = Some v -> In (k, v) m.
Proof.
  induction m as [| [k' v'] m IH]; cbn [Map_get]; [discriminate |].
  destruct (String.eqb_spec k' k) as [-> | _].
  - intros H. injection H as ->. now left.
  - intros H. right. now apply IH.
Qed.

Lemma Map_get_permutation (m m' : JSMap) (k : ENRKey) :
  NoDup (Map_keys m) -> Permutation m m' -> Map_get k m = Map_get k m'.
Proof.
  intros Hnodup Hperm.
  assert (Hkeys : Permutation (Map_keys m) (Map_keys m'))
    by now apply Permutation_map.
  assert (Hnodup' : NoDup (Map_keys m'))
    by now apply (Permutation_NoDup (l := Map_keys m)).
  destruct (Map_get k m) as [v |] eqn:E.
  - symmetry. apply Map_get_In; [assumption |].
    eapply Permutation_in; [exact Hperm |]. now apply Map_get_Some_In.
  - pose proof (Map_get_keys k m) as Hk. rewrite E in Hk.
    pose proof (Map_get_keys k m') as Hk'.
    destruct (Map_get k m'); [| reflexivity].
    exfalso. apply Hk. eapply Permutation_in; [symmetry; exact Hkeys | exact Hk'].
Qed.

Lemma sort_insert_perm {A : Type} (cmp : A -> A -> Z) (a : A) (l : list A) :
  Permutation (sort_insert cmp a l) (a :: l).
Proof.
  induction l as [| b l IH]; simpl; [reflexivity |].
  destruct (cmp a b <=? 0)%Z; [reflexivity |].
  rewrite IH. apply perm_swap.
Qed.

Lemma Array_sort_perm {A : Type} (cmp : A -> A -> Z) (l : list A) :
  Permutation (Array_sort cmp l) l.
Proof.
  induction l as [| a l IH]; simpl; [reflexivity |].
  rewrite sort_insert_perm. now constructor.
Qed.

(** ** Entry mutation *)

(** C4: [set(k, v)] clears the signature, adds exactly 1 to the sequence
    number and stores the value under the key, whatever the record held
    before: no comparison with the stored value is made, so the record
    changes also when the same value is written again.  The other keys keep
    their values. *)
Theorem set_invalidates_signature_and_increments_seq
    (this : ENR) (k : ENRKey) (v : ENRValue) :
  snd (set k v this) = Ok tt
  /\ signature (fst (set k v this)) = None
  /\ seq (fst (set k v this)) = (seq this + 1)%N
  /\ Map_get k (entries (fst (set k v this))) = Some v
  /\ (forall k', k' <> k ->
        Map_get k' (entries (fst (set k v this))) = Map_get k' (entries this))
  /\ fst (set k v this) <> this.
Proof.
  unfold set, bind, assign_signature, increment_seq, super_set; simpl.
  repeat split.
  - apply Map_get_set_same.
  - intros k' Hk'. now apply Map_get_set_other.
  - intros Heq. apply (f_equal seq) in Heq. simpl in Heq. lia.
Qed.

(** ** Endpoint views *)

(** C9: an endpoint setter given [undefined] returns at once: nothing is
    thrown, and entries, sequence number and signature are as before. *)
Theorem endpoint_setters_ignore_undefined (this : ENR) :
  set_multiaddrUDP None this = (this, Ok tt)
  /\ set_multiaddrTCP None this = (this, Ok tt).
Proof. split; reflexivity. Qed.

Lemma multiaddrGetter_ipv4 (transport : string) (this : ENR) (ip4 port4 : Buffer) :
  Map_get "ip" (entries this) = Some ip4 ->
  Map_get transport (entries this) = Some port4 ->
  multiaddrGetter transport this = (this, endpoint4 transport ip4 port4).
Proof.
  intros Hip Hport.
  unfold multiaddrGetter, bind, get, lift, endpoint4; simpl.
  rewrite Hip, Hport.
  destruct (readUInt16BE port4); [| reflexivity].
  cbn [result_bind]. destruct (newMultiaddr _); reflexivity.
Qed.

Lemma multiaddrGetter_ipv6 (transport : string) (this : ENR) :
  Map_get "ip" (entries this) = None \/ Map_get transport (entries this) = None ->
  multiaddrGetter transport this =
    (this,
     match Map_get "ip6" (entries this),
           Map_get (transport ++ "6")%string (entries this) with
     | Some ip6, Some port6 => endpoint6 transport ip6 port6
     | _, _ => Ok None
     end).
Proof.
  intros Habsent.
  unfold multiaddrGetter, bind, get, lift, endpoint6; simpl.
  assert (Hfall : match Map_get "ip" (entries this), Map_get transport (entries this) with
                  | Some _, Some _ => False
                  | _, _ => True
                  end).
  { destruct Habsent as [-> | ->]; [exact I |].
    now destruct (Map_get "ip" (entries this)). }
  destruct (Map_get "ip" (entries this)), (Map_get transport (entries this));
    try contradiction;
    destruct (Map_get "ip6" (entries this)),
             (Map_get (transport ++ "6")%string (entries this));
    try reflexivity;
    (destruct (readUInt16BE _); [| reflexivity]);
    cbn [result_bind]; destruct (newMultiaddr _); reflexivity.
Qed.


(** The guard of a setter as it is written: it throws only when the number
    of segments is not 2 and, at once, the second segment is not the
    transport. *)
Lemma multiaddrSetter_guard (transport : string) (multiaddr : Multiaddr) (this : ENR) :
  snd (multiaddrSetter transport (Some multiaddr) this) = Err InvalidEndpoint <->
  length (protoNames multiaddr) <> 2
  /\ differs (nth_error (protoNames multiaddr) 1) transport = true.
Proof.
  assert (Hpass :
    snd ((t0 <- index (tuples multiaddr) 0 ;;
          if (fst t0 =? 4)%N then
            set "ip" (snd t0) ;;
            t1 <- index (tuples multiaddr) 1 ;;
            set transport (snd t1)
          else
            set "ip6" (snd t0) ;;
            t1 <- index (tuples multiaddr) 1 ;;
            set (transport ++ "6")%string (snd t1)) this) <> Err InvalidEndpoint).
  { unfold index, tuples, bind, set, throw, ret,
      assign_signature, increment_seq, super_set.
    destruct multiaddr as [| s0 [| s1 rest]]; cbn [map nth_error fst snd];
      try discriminate;
      destruct (protoCode s0 =? 4)%N; cbn; discriminate. }
  unfold multiaddrSetter.
  destruct (Nat.eqb_spec (length (protoNames multiaddr)) 2) as [Hlen | Hlen];
    destruct (differs (nth_error (protoNames multiaddr) 1) transport) eqn:Hd;
    cbn [negb andb].
  - split; [intros H; now apply Hpass in H | intros [H _]; contradiction].
  - split; [intros H; now apply Hpass in H | intros [H _]; contradiction].
  - split; [intros _; now split | reflexivity].
  - split; [intros H; now apply Hpass in H | intros [_ H]; discriminate].
Qed.

(** C2 (the code does otherwise): the UDP setter is given the endpoint
    /ip4/192.0.2.1/tcp/30303, whose second segment is not "udp", and the TCP
    setter the endpoint /ip4/192.0.2.1/udp/30303.  The test
    [protoNames.length !== 2 && protoNames[1] !== "udp"] is false for it, as
    the length is 2: nothing is thrown, and the address and the port of the
    other transport are written to the "ip" and "udp" (or "tcp") entries. *)
Theorem set_multiaddrUDP_accepts_tcp_endpoint :
  let tcp :=
    [mkSegment 4 "ip4" [xc0; x00; x02; x01]; mkSegment 6 "tcp" [x76; x5f]] in
  let udp :=
    [mkSegment 4 "ip4" [xc0; x00; x02; x01]; mkSegment 273 "udp" [x76; x5f]] in
  let this := new_ENR [("id", Buffer_from "v4")] 1%N None in
  validEndpoint "udp" tcp = false
  /\ snd (set_multiaddrUDP (Some tcp) this) = Ok tt
  /\ entries (fst (set_multiaddrUDP (Some tcp) this)) =
       [("id", Buffer_from "v4"); ("ip", [xc0; x00; x02; x01]); ("udp", [x76; x5f])]
  /\ validEndpoint "tcp" udp = false
  /\ snd (set_multiaddrTCP (Some udp) this) = Ok tt
  /\ entries (fst (set_multiaddrTCP (Some udp) this)) =
       [("id", Buffer_from "v4"); ("ip", [xc0; x00; x02; x01]); ("tcp", [x76; x5f])].
Proof. repeat split. Qed.

(** ** Encoding *)

Lemma encode_with_key (privateKey : Buffer) (this : ENR) :
  encode (Some privateKey) this =
    match Map_get "id" (entries this) with
    | None => (this, Err TypeError)
    | Some i =>
        if String.eqb (Buffer_toString i) "v4" then
          let s := v4_sign privateKey (RLP.encode (content this)) in
          let encoded := RLP.encode (RLP.IBuf s :: content this) in
          (mkENR (entries this) (seq this) (Some s),
           if (length encoded <? MAX_RECORD_SIZE)%nat then Ok encoded
           else Err RecordTooLarge)
        else (this, Err ERR_INVALID_ID)
    end.
Proof.
  unfold encode, sign, id, get, bind, this_, ret, throw, assign_signature.
  destruct (Map_get "id" (entries this)) as [i |]; [| reflexivity].
  destruct (String.eqb (Buffer_toString i) "v4"); [| reflexivity].
  cbv zeta.
  destruct (length _ <? MAX_RECORD_SIZE)%nat; reflexivity.
Qed.

Lemma encode_without_key (this : ENR) :
  encode None this =
    match signature this with
    | None => (this, Err ERR_NO_SIGNATURE)
    | Some s =>
        let encoded := RLP.encode (RLP.IBuf s :: content this) in
        (this,
         if (length encoded <? MAX_RECORD_SIZE)%nat then Ok encoded
         else Err RecordTooLarge)
    end.
Proof.
  unfold encode, bind, this_, ret, throw.
  destruct (signature this) as [s |]; [| reflexivity].
  cbv zeta.
  destruct (length _ <? MAX_RECORD_SIZE)%nat; reflexivity.
Qed.

Lemma content_signature (e : JSMap) (n : SequenceNumber) (s s' : option Buffer) :
  content (mkENR e n s) = content (mkENR e n s').
Proof. reflexivity. Qed.


(** What a successful [encode(privateKey)] leaves and returns. *)
Lemma encode_success_inv
    (privateKey : Buffer) (this this' : ENR) (encoded : Buffer) :
  encode (Some privateKey) this = (this', Ok encoded) ->
  let s := v4_sign privateKey (RLP.encode (content this)) in
  this' = mkENR (entries this) (seq this) (Some s)
  /\ encoded = RLP.encode (RLP.IBuf s :: content this)
  /\ length encoded < MAX_RECORD_SIZE.
Proof.
  rewrite encode_with_key.
  destruct (Map_get "id" (entries this)) as [i |]; [| discriminate].
  destruct (String.eqb (Buffer_toString i) "v4"); [| discriminate].
  cbv zeta.
  destruct (Nat.ltb_spec (length (RLP.encode
              (RLP.IBuf (v4_sign privateKey (RLP.encode (content this)))
               :: content this))) MAX_RECORD_SIZE) as [Hlt | _]; [| discriminate].
  intros H. injection H as <- <-. repeat split. exact Hlt.
Qed.

(** C7: when [encode(privateKey)] returns, the signature of the record is
    the one just computed over the encoding of [[Number(seq), k, v, ...]],
    and the sequence number and the entries are what they were. *)
Theorem encode_signs_and_keeps_seq
    (privateKey : Buffer) (this this' : ENR) (encoded : Buffer) :
  encode (Some privateKey) this = (this', Ok encoded) ->
  signature this' = Some (v4_sign privateKey (RLP.encode (content this)))
  /\ seq this' = seq this
  /\ entries this' = entries this.
Proof.
  rewrite encode_with_key.
  destruct (Map_get "id" (entries this)) as [i |]; [| discriminate].
  destruct (String.eqb (Buffer_toString i) "v4"); [| discriminate].
  cbv zeta. intros H. injection H as <- _. repeat split.
Qed.

(** C8: when [encode(privateKey)] fails on the size limit, the signature
    computed during the call is already stored in the record.  The failure
    leaves the record changed whenever that signature is not the one it held
    before, as for every record without a signature. *)
Theorem encode_failure_keeps_new_signature
    (privateKey : Buffer) (this this' : ENR) :
  encode (Some privateKey) this = (this', Err RecordTooLarge) ->
  signature this' = Some (v4_sign privateKey (RLP.encode (content this)))
  /\ (signature this <> Some (v4_sign privateKey (RLP.encode (content this))) ->
      this' <> this)
  /\ (signature this = None -> this' <> this).
Proof.
  rewrite encode_with_key.
  destruct (Map_get "id" (entries this)) as [i |]; [| discriminate].
  destruct (String.eqb (Buffer_toString i) "v4"); [| discriminate].
  cbv zeta. intros H. injection H as <- _. cbn [signature].
  split; [reflexivity |].
  split.
  - intros Hne Heq. apply Hne. rewrite <- Heq. reflexivity.
  - intros Hnone Heq. rewrite <- Heq in Hnone. discriminate.
Qed.

(** C1 (the code does otherwise): [encode] orders the keys with
    [localeCompare].  Under a collation that puts "a" before "B", as the
    default one does, a record with the keys "B" and "a" is encoded with "a"
    first, where the order of the bytes puts "B" (0x42) before "a" (0x61).
    (Both comparisons are assumed, whichever of the two the engine asks
    for.) *)
Theorem encode_orders_keys_by_locale (s vB va : Buffer) :
  (localeCompare "a" "B" < 0)%Z ->
  (localeCompare "B" "a" > 0)%Z ->
  let this := new_ENR [("B", vB); ("a", va)] 1%N (Some s) in
  bytewiseCompare "B" "a" = (-1)%Z
  /\ sortedKeys this = ["a"; "B"]
  /\ Array_sort bytewiseCompare (Map_keys (entries this)) = ["B"; "a"]
  /\ content this =
       [RLP.INum (Finite 1); RLP.IStr "a"; RLP.IBuf va; RLP.IStr "B"; RLP.IBuf vB].
Proof.
  intros _ Hcmp this.
  assert (Hkeys : sortedKeys this = ["a"; "B"]).
  { unfold sortedKeys, this; simpl.
    destruct (localeCompare "B" "a" <=? 0)%Z eqn:E; [| reflexivity].
    apply Z.leb_le in E. lia. }
  repeat split; try assumption.
  unfold content. rewrite Hkeys. reflexivity.
Qed.


(** ** Decoding what [encode] wrote *)

Lemma In_sortedKeys (this : ENR) (k : ENRKey) :
  In k (sortedKeys this) <-> In k (Map_keys (entries this)).
Proof.
  unfold sortedKeys. split; apply Permutation_in;
    [| symmetry]; apply Array_sort_perm.
Qed.


Lemma content_bytes (this : ENR) :
  map RLP.toBuffer (content this) =
    RLP.toBuffer (RLP.INum (Number (seq this)))
    :: keyValueBytes this (sortedKeys this).
Proof.
  unfold content, keyValueBytes. cbn [map]. f_equal.
  induction (sortedKeys this) as [| k ks IH]; [reflexivity |].
  cbn [flat_map map app]. now rewrite IH.
Qed.

Lemma encode_of_buffers (input : list RLP.Input) :
  RLP.encode (map RLP.IBuf (map RLP.toBuffer input)) = RLP.encode input.
Proof. unfold RLP.encode. now rewrite !map_map. Qed.

Lemma keyValueBytes_even (this : ENR) (ks : list ENRKey) :
  Nat.even (length (keyValueBytes this ks)) = true.
Proof. induction ks as [| k ks IH]; [reflexivity | exact IH]. Qed.

Lemma keyValueItems_even (obj : list (ENRKey * ENRValue)) :
  Nat.even (length (keyValueItems obj)) = true.
Proof. induction obj as [| kv obj IH]; [reflexivity | exact IH]. Qed.

Lemma keyValueBytes_items (this : ENR) (ks : list ENRKey) :
  keyValueBytes this ks = keyValueItems (map (fun k => (k, valueBytes this k)) ks).
Proof.
  unfold keyValueBytes, keyValueItems.
  induction ks as [| k ks IH]; [reflexivity |].
  cbn [map flat_map fst snd]. now rewrite IH.
Qed.

(** The map built from the pairs [(k, f k)]: a key among them is bound to
    [f k], whatever the order and the repetitions. *)
Lemma Map_get_fold_set (f : ENRKey -> ENRValue) (ks : list ENRKey) (k : ENRKey) (m : JSMap) :
  Map_get k (fold_left (fun m kv => Map_set (fst kv) (snd kv) m)
               (map (fun k => (k, f k)) ks) m) =
    if in_dec string_dec k ks then Some (f k) else Map_get k m.
Proof.
  revert m.
  induction ks as [| k0 ks IH]; intros m; [reflexivity |].
  cbn [map fold_left fst snd]. rewrite IH.
  destruct (in_dec string_dec k ks) as [Hin | Hnin].
  - destruct (in_dec string_dec k (k0 :: ks)) as [_ | Hn]; [reflexivity |].
    exfalso. apply Hn. now right.
  - destruct (string_dec k0 k) as [-> | Hne].
    + rewrite Map_get_set_same.
      destruct (in_dec string_dec k (k :: ks)) as [_ | Hn]; [reflexivity |].
      exfalso. apply Hn. now left.
    + rewrite Map_get_set_other by congruence.
      destruct (in_dec string_dec k (k0 :: ks)) as [[Heq | Hin] | _];
        [congruence | contradiction | reflexivity].
Qed.

Lemma Map_get_decoded_entries (this : ENR) (k : ENRKey) :
  Map_get k (Map_of_entries (map (fun k => (k, valueBytes this k)) (sortedKeys this))) =
    Map_get k (entries this).
Proof.
  unfold Map_of_entries. rewrite Map_get_fold_set.
  pose proof (Map_get_keys k (entries this)) as Hk.
  destruct (in_dec string_dec k (sortedKeys this)) as [Hin | Hnin].
  - apply In_sortedKeys in Hin.
    unfold valueBytes.
    destruct (Map_get k (entries this)); [reflexivity | contradiction].
  - rewrite In_sortedKeys in Hnin.
    destruct (Map_get k (entries this)); [contradiction | reflexivity].
Qed.

Lemma decodedSeq_exact (n : SequenceNumber) : (n < 2 ^ 53)%N -> decodedSeq n = n.
Proof.
  intros H. unfold decodedSeq, Number, round53.
  destruct (N.ltb_spec n (2 ^ 53)) as [_ | Hge]; [| lia].
  destruct (N.ltb_spec n (2 ^ 1024)) as [_ | Hge].
  - cbn [RLP.toBuffer]. apply toBigIntBE_intToBuffer.
  - exfalso.
    assert (2 ^ 53 <= 2 ^ 1024)%N by (apply N.pow_le_mono_r; lia).
    lia.
Qed.

Lemma verify_run (data sig : Buffer) (enr : ENR) :
  snd (verify data sig enr) =
    match Map_get "id" (entries enr) with
    | None => Err TypeError
    | Some i =>
        if String.eqb (Buffer_toString i) "v4"
        then Ok (v4_verify (Map_get "secp256k1" (entries enr)) data sig)
        else Err ERR_INVALID_ID
    end.
Proof.
  unfold verify, publicKey, id, get, bind, ret, throw.
  destruct (Map_get "id" (entries enr)) as [i |] eqn:Hid; [| reflexivity].
  destruct (String.eqb (Buffer_toString i) "v4") eqn:E; [| reflexivity].
  rewrite Hid, E. reflexivity.
Qed.

Lemma nodeId_run (enr : ENR) :
  snd (nodeId enr) =
    match Map_get "id" (entries enr) with
    | None => Err TypeError
    | Some i =>
        if String.eqb (Buffer_toString i) "v4"
        then Ok (v4_nodeId (Map_get "secp256k1" (entries enr)))
        else Err ERR_INVALID_ID
    end.
Proof.
  unfold nodeId, publicKey, id, get, bind, ret, throw.
  destruct (Map_get "id" (entries enr)) as [i |] eqn:Hid; [| reflexivity].
  destruct (String.eqb (Buffer_toString i) "v4") eqn:E; [| reflexivity].
  rewrite Hid, E. reflexivity.
Qed.

(** ** Plain objects *)

Lemma filter_partition {A : Type} (f : A -> bool) (l : list A) :
  Permutation (filter f l ++ filter (fun x => negb (f x)) l) l.
Proof.
  induction l as [| a l IH]; [reflexivity |].
  cbn [filter]. destruct (f a); cbn [negb app].
  - now constructor.
  - rewrite <- Permutation_middle. now constructor.
Qed.

Lemma Object_entries_perm (obj : JSObject) :
  Permutation (Object_entries obj) (own obj).
Proof.
  unfold Object_entries. rewrite Array_sort_perm. apply filter_partition.
Qed.

Lemma lastValue_NoDup (k : ENRKey) (l : list (ENRKey * ENRValue)) :
  NoDup (map fst l) -> lastValue k l = Map_get k l.
Proof.
  induction l as [| [k' v] l IH]; [reflexivity |].
  cbn [map fst lastValue Map_get]. intros Hnodup.
  inversion Hnodup as [| ? ? Hnotin Hrest]; subst.
  rewrite (IH Hrest).
  destruct (String.eqb_spec k' k) as [-> | _]; [| now destruct (Map_get k l)].
  pose proof (Map_get_keys k l) as Hk.
  destruct (Map_get k l); [contradiction | reflexivity].
Qed.

(** The map made of the entries of an object binds a key as the object
    does. *)
Lemma Map_get_Object_entries (k : ENRKey) (obj : JSObject) :
  NoDup (Map_keys (own obj)) ->
  Map_get k (Map_of_entries (Object_entries obj)) = Map_get k (own obj).
Proof.
  intros Hnodup.
  assert (Hperm : Permutation (own obj) (Object_entries obj))
    by (symmetry; apply Object_entries_perm).
  rewrite Map_get_Map_of_entries, lastValue_NoDup.
  - symmetry. now apply Map_get_permutation.
  - apply (Permutation_NoDup (l := Map_keys (own obj))); [| exact Hnodup].
    now apply Permutation_map.
Qed.




(** ** [decode] on byte strings and plain keys *)

Lemma utf8_toString_plain (k : ENRKey) :
  plainKey k = true -> utf8_toString (Buffer_from k) = k.
Proof.
  unfold plainKey, utf8_toString. intros H.
  apply andb_prop in H. destruct H as [-> _].
  unfold Buffer_toString, Buffer_from.
  apply string_of_list_byte_of_string.
Qed.

Lemma Object_set_plain (k : ENRKey) (v : ENRValue) (m : JSMap) :
  plainKey k = true ->
  Object_set k v (mkObject m None) = Ok (mkObject (Map_set k v m) None).
Proof.
  unfold plainKey, Object_set. intros H.
  apply andb_prop in H. destruct H as [_ H].
  apply negb_true_iff in H. rewrite H. cbn [own proto].
  now destruct (Map_get k m).
Qed.

Lemma assignEntries_plain (obj : list (ENRKey * ENRValue)) (m : JSMap) :
  forallb (fun kv => plainKey (fst kv)) obj = true ->
  assignEntries (map RLP.DBuffer (keyValueItems obj)) (mkObject m None) =
    Ok (mkObject (fold_left (fun m kv => Map_set (fst kv) (snd kv) m) obj m) None).
Proof.
  revert m.
  induction obj as [| [k v] obj IH]; intros m H; [reflexivity |].
  cbn [forallb fst] in H. apply andb_prop in H. destruct H as [Hk Hrest].
  unfold keyValueItems.
  cbn [flat_map app map fst snd assignEntries Item_toString Buffer_from_item].
  rewrite (utf8_toString_plain k Hk), (Object_set_plain k v m Hk).
  cbn [result_bind fold_left fst snd].
  now apply IH.
Qed.

Lemma encodeArray_items (items : list RLP.Decoded) :
  RLP.encodeArray (map Some items) = RLP.encodeDecoded (RLP.DList items).
Proof.
  unfold RLP.encodeArray. cbn [RLP.encodeDecoded]. now rewrite map_map.
Qed.

Lemma encodeArray_of_buffers (bs : list Buffer) :
  RLP.encodeArray (map Some (map RLP.DBuffer bs)) = RLP.encode (map RLP.IBuf bs).
Proof. unfold RLP.encodeArray, RLP.encode. now rewrite !map_map. Qed.

Lemma toBuffer_of_buffers (bs : list Buffer) :
  map RLP.toBuffer (map RLP.IBuf bs) = bs.
Proof.
  induction bs as [| b bs IH]; [reflexivity |].
  cbn [map RLP.toBuffer]. now rewrite IH.
Qed.

(** [decode] of the encoding of byte strings: the record made of the
    object they fill, accepted or refused by [verify]. *)
Lemma decode_of_buffers
    (sig seqBytes : Buffer) (kvs : list Buffer) (obj : JSObject) :
  (N.of_nat (length (RLP.encode (map RLP.IBuf (sig :: seqBytes :: kvs)))) < 2 ^ 64)%N ->
  Nat.even (length kvs) = true ->
  assignEntries (map RLP.DBuffer kvs) emptyObject = Ok obj ->
  decode (RLP.encode (map RLP.IBuf (sig :: seqBytes :: kvs))) =
    (verified <-
       snd (verify (RLP.encode (map RLP.IBuf (seqBytes :: kvs))) sig
              (new_ENR (Object_entries obj) (toBigIntBE seqBytes) (Some sig))) ;;
     if verified
     then Ok (new_ENR (Object_entries obj) (toBigIntBE seqBytes) (Some sig))
     else Err InvalidSignature)%result.
Proof.
  intros Hsize Heven Hobj.
  unfold decode.
  rewrite decode_encode_items by exact Hsize.
  cbn [result_bind].
  rewrite toBuffer_of_buffers.
  rewrite length_map. cbn [length].
  change (Nat.even (S (S (length kvs)))) with (Nat.even (length kvs)).
  rewrite Heven. cbn [negb].
  cbn [map nth_error skipn]. cbv zeta.
  rewrite Hobj.
  cbn [result_bind toBigIntBE_item signatureOf verifyItem].
  change (Some (RLP.DBuffer seqBytes) :: map Some (map RLP.DBuffer kvs))
    with (map Some (map RLP.DBuffer (seqBytes :: kvs))).
  now rewrite encodeArray_of_buffers.
Qed.

Lemma decode_of_items
    (sig seqBytes : Buffer) (obj : list (ENRKey * ENRValue)) :
  (N.of_nat (length (RLP.encode
     (map RLP.IBuf (sig :: seqBytes :: keyValueItems obj)))) < 2 ^ 64)%N ->
  forallb (fun kv => plainKey (fst kv)) obj = true ->
  decode (RLP.encode (map RLP.IBuf (sig :: seqBytes :: keyValueItems obj))) =
    (verified <-
       snd (verify (RLP.encode (map RLP.IBuf (seqBytes :: keyValueItems obj))) sig
              (new_ENR (Object_entries (mkObject (Map_of_entries obj) None))
                 (toBigIntBE seqBytes) (Some sig))) ;;
     if verified
     then Ok (new_ENR (Object_entries (mkObject (Map_of_entries obj) None))
                (toBigIntBE seqBytes) (Some sig))
     else Err InvalidSignature)%result.
Proof.
  intros Hsize Hplain.
  apply (decode_of_buffers sig seqBytes (keyValueItems obj)
           (mkObject (Map_of_entries obj) None) Hsize (keyValueItems_even obj)).
  unfold emptyObject. apply (assignEntries_plain obj [] Hplain).
Qed.

Lemma Map_get_decoded_record (this : ENR) (k : ENRKey) :
  Map_get k
    (Map_of_entries
       (Object_entries
          (mkObject
             (Map_of_entries (map (fun k => (k, valueBytes this k)) (sortedKeys this)))
             None))) =
    Map_get k (entries this).
Proof.
  rewrite Map_get_Object_entries by apply Map_of_entries_NoDup.
  cbn [own]. apply Map_get_decoded_entries.
Qed.

Lemma plainKeys_sorted (this : ENR) :
  forallb plainKey (Map_keys (entries this)) = true ->
  forallb (fun kv => plainKey (fst kv))
    (map (fun k => (k, valueBytes this k)) (sortedKeys this)) = true.
Proof.
  intros H. rewrite forallb_forall in H. apply forallb_forall.
  intros kv Hin. apply in_map_iff in Hin. destruct Hin as (k & <- & Hin).
  cbn [fst]. apply H. now apply In_sortedKeys.
Qed.

(** What [decode] makes of the bytes [encode(privateKey)] returned, the keys
    of the record plain: the record is accepted or refused by [verify]
    alone. *)
Lemma decode_of_encode (privateKey : Buffer) (this this' : ENR) (encoded : Buffer) :
  snd (id this) = Ok "v4" ->
  forallb plainKey (Map_keys (entries this)) = true ->
  encode (Some privateKey) this = (this', Ok encoded) ->
  let data := RLP.encode (content this) in
  let s := v4_sign privateKey data in
  let enr :=
    new_ENR
      (Object_entries
         (mkObject
            (Map_of_entries (map (fun k => (k, valueBytes this k)) (sortedKeys this)))
            None))
      (decodedSeq (seq this)) (Some s) in
  decode encoded =
    if v4_verify (Map_get "secp256k1" (entries this)) data s
    then Ok enr else Err InvalidSignature.
Proof.
  intros Hid Hplain Henc data s enr.
  destruct (encode_success_inv privateKey this this' encoded Henc)
    as (_ & Hencoded & Hsize).
  fold data s in Hencoded. subst encoded.
  unfold id, get, bind, ret, throw in Hid.
  destruct (Map_get "id" (entries this)) as [i |] eqn:Hi; simpl in Hid;
    [| discriminate].
  injection Hid as Hid.
  assert (Hitems :
    RLP.encode (RLP.IBuf s :: content this) =
      RLP.encode (map RLP.IBuf
        (s :: RLP.toBuffer (RLP.INum (Number (seq this)))
           :: keyValueItems (map (fun k => (k, valueBytes this k)) (sortedKeys this))))).
  { rewrite <- keyValueBytes_items, <- content_bytes.
    change (map RLP.IBuf (s :: map RLP.toBuffer (content this)))
      with (map RLP.IBuf (map RLP.toBuffer (RLP.IBuf s :: content this))).
    now rewrite encode_of_buffers. }
  rewrite Hitems in Hsize |- *.
  assert (Hbound :
    (N.of_nat (length (RLP.encode (map RLP.IBuf
        (s :: RLP.toBuffer (RLP.INum (Number (seq this)))
           :: keyValueItems (map (fun k => (k, valueBytes this k)) (sortedKeys this))))))
     < 2 ^ 64)%N).
  { unfold MAX_RECORD_SIZE in Hsize.
    assert (300 < 2 ^ 64)%N by (vm_compute; reflexivity). lia. }
  rewrite (decode_of_items s _ _ Hbound (plainKeys_sorted this Hplain)).
  fold (decodedSeq (seq this)). fold enr.
  rewrite <- keyValueBytes_items, <- content_bytes, encode_of_buffers. fold data.
  rewrite verify_run. unfold enr, new_ENR. cbn [entries].
  rewrite !Map_get_decoded_record, Hi, Hid, String.eqb_refl.
  cbn [result_bind]. reflexivity.
Qed.

Lemma id_v4_of_encode (privateKey : Buffer) (this this' : ENR) (encoded : Buffer) :
  encode (Some privateKey) this = (this', Ok encoded) -> snd (id this) = Ok "v4".
Proof.
  rewrite encode_with_key.
  unfold id, get, bind, ret, throw.
  destruct (Map_get "id" (entries this)) as [i |]; [| discriminate].
  destruct (String.eqb_spec (Buffer_toString i) "v4") as [-> | _];
    [reflexivity | discriminate].
Qed.

Lemma decode_encode_core (privateKey : Buffer) (this this' : ENR) (encoded : Buffer) :
  sign_verify_law ->
  forallb plainKey (Map_keys (entries this)) = true ->
  Map_get "secp256k1" (entries this) = Some (publicKeyOf privateKey) ->
  encode (Some privateKey) this = (this', Ok encoded) ->
  exists enr,
    decode encoded = Ok enr
    /\ signature enr = signature this'
    /\ seq enr = decodedSeq (seq this)
    /\ forall k, Map_get k (entries enr) = Map_get k (entries this).
Proof.
  intros Hlaw Hplain Hpk Henc.
  pose proof (decode_of_encode privateKey this this' encoded
                (id_v4_of_encode privateKey this this' encoded Henc) Hplain Henc)
    as Hdec.
  cbv zeta in Hdec. rewrite Hpk, Hlaw in Hdec.
  destruct (encode_success_inv privateKey this this' encoded Henc)
    as (-> & _ & _).
  eexists. split; [exact Hdec |].
  split; [reflexivity |]. split; [reflexivity |].
  intros k. apply Map_get_decoded_record.
Qed.

(** Round trip: a record of scheme v4 whose "secp256k1" entry is the public
    key of the private key, whose sequence number is below 2^53 and whose
    keys are plain (the UTF-8 bytes of a string, none of them the name
    __proto__), is read back from the bytes [encode(privateKey)] returns:
    same signature, same sequence number, the same value under every key,
    the same node identifier. *)
Theorem decode_encode_round_trip
    (privateKey : Buffer) (this this' : ENR) (encoded : Buffer) :
  sign_verify_law ->
  forallb plainKey (Map_keys (entries this)) = true ->
  Map_get "secp256k1" (entries this) = Some (publicKeyOf privateKey) ->
  (seq this < 2 ^ 53)%N ->
  encode (Some privateKey) this = (this', Ok encoded) ->
  exists enr,
    decode encoded = Ok enr
    /\ signature enr = signature this'
    /\ seq enr = seq this'
    /\ (forall k, Map_get k (entries enr) = Map_get k (entries this'))
    /\ snd (nodeId enr) = snd (nodeId this').
Proof.
  intros Hlaw Hplain Hpk Hseq Henc.
  destruct (decode_encode_core privateKey this this' encoded Hlaw Hplain Hpk Henc)
    as (enr & Hdec & Hsig & Hs & Hget).
  destruct (encode_success_inv privateKey this this' encoded Henc)
    as (Hthis' & _ & _).
  exists enr. rewrite Hthis' in *. cbn [seq entries signature] in *.
  repeat split; try assumption.
  - rewrite Hs. now apply decodedSeq_exact.
  - rewrite !nodeId_run. cbn [entries]. rewrite !Hget. reflexivity.
Qed.
(** C3 (the code does otherwise): the round trip loses the sequence number
    2^53 + 1.  [encode] writes [Number(this.seq)], the nearest double, which
    is 2^53; the signature is made over these bytes, so [decode] accepts
    them and returns a record whose sequence number is 2^53. *)
Theorem decode_encode_rounds_large_seq
    (privateKey : Buffer) (this' : ENR) (encoded : Buffer) :
  sign_verify_law ->
  let this :=
    new_ENR [("id", Buffer_from "v4"); ("secp256k1", publicKeyOf privateKey)]
      (2 ^ 53 + 1)%N None in
  encode (Some privateKey) this = (this', Ok encoded) ->
  seq this' = (2 ^ 53 + 1)%N
  /\ exists enr, decode encoded = Ok enr /\ seq enr = (2 ^ 53)%N.
Proof.
  intros Hlaw this Henc.
  assert (Hpk : Map_get "secp256k1" (entries this) = Some (publicKeyOf privateKey))
    by reflexivity.
  assert (Hplain : forallb plainKey (Map_keys (entries this)) = true)
    by reflexivity.
  destruct (decode_encode_core privateKey this this' encoded Hlaw Hplain Hpk Henc)
    as (enr & Hdec & _ & Hs & _).
  destruct (encode_success_inv privateKey this this' encoded Henc)
    as (Hthis' & _ & _).
  split; [now rewrite Hthis' |].
  exists enr. split; [exact Hdec |].
  rewrite Hs. vm_compute. reflexivity.
Qed.

(** ** Decoding *)

Lemma take_error (n : nat) (input : Buffer) (e : Error) :
  RLP.take n input = Err e -> e = MalformedRecord.
Proof. unfold RLP.take. destruct (length input <? n)%nat; congruence. Qed.

Lemma parseLength_error (lenBytes : Buffer) (e : Error) :
  RLP.parseLength lenBytes = Err e -> e = MalformedRecord.
Proof.
  unfold RLP.parseLength. destruct lenBytes as [| b l]; [discriminate |].
  destruct b; congruence.
Qed.

Ltac codec_error H :=
  repeat match type of H with
    | result_bind ?r _ = Err _ =>
        let E := fresh "E" in
        destruct r as [? | ?] eqn:E; cbn [result_bind] in H;
        [| try (apply take_error in E); try (apply parseLength_error in E)]
    | (let (_, _) := ?p in _) = Err _ => destruct p
    | (if ?c then _ else _) = Err _ => destruct c
    | Ok _ = Err _ => discriminate H
    | Err _ = Err _ => injection H as H
    end.

Lemma codec_errors (fuel : nat) :
  (forall input e, RLP._decode fuel input = Err e -> e = MalformedRecord)
  /\ (forall input e, RLP.decodeItems fuel input = Err e -> e = MalformedRecord).
Proof.
  induction fuel as [| fuel [IHd IHi]]; split; intros input e H;
    cbn [RLP._decode RLP.decodeItems] in H; try congruence;
    destruct input as [| firstByte rest]; try congruence.
  - cbv zeta in H. codec_error H; subst; try congruence;
      match goal with E : RLP.decodeItems _ _ = Err _ |- _ =>
        apply IHi in E; congruence end.
  - codec_error H; subst; try congruence.
    + match goal with E : RLP.decodeItems _ _ = Err _ |- _ =>
        apply IHi in E; congruence end.
    + match goal with E : RLP._decode _ _ = Err _ |- _ =>
        apply IHd in E; congruence end.
Qed.

Lemma RLP_decode_error (input : Buffer) (e : Error) :
  RLP.decode input = Err e -> e = MalformedRecord.
Proof.
  unfold RLP.decode. intros H.
  destruct (RLP._decode _ input) as [[d remainder] | e'] eqn:E;
    cbn [result_bind] in H.
  - destruct remainder; congruence.
  - apply (proj1 (codec_errors _)) in E. congruence.
Qed.

(** [decode] once the codec has returned a list with an even number of
    items. *)
Lemma decode_list (encoded : Buffer) (items : list RLP.Decoded) :
  RLP.decode encoded = Ok (RLP.DList items) ->
  Nat.even (length items) = true ->
  decode encoded =
    (obj <- assignEntries (skipn 2 items) emptyObject ;;
     n <- toBigIntBE_item (nth_error items 1) ;;
     verified <-
       snd (verifyItem (RLP.encodeArray (nth_error items 1 :: map Some (skipn 2 items)))
              (nth_error items 0)
              (new_ENR (Object_entries obj) n (signatureOf (nth_error items 0)))) ;;
     if verified
     then Ok (new_ENR (Object_entries obj) n (signatureOf (nth_error items 0)))
     else Err InvalidSignature)%result.
Proof.
  intros Hdec Heven. unfold decode. rewrite Hdec. cbn [result_bind].
  now rewrite Heven.
Qed.

Lemma verifyItem_run (data : Buffer) (signature : option RLP.Decoded) (enr : ENR) :
  snd (verifyItem data signature enr) =
    match Map_get "id" (entries enr) with
    | None => Err TypeError
    | Some i =>
        if String.eqb (Buffer_toString i) "v4"
        then Ok match signature with
                | Some (RLP.DBuffer s) =>
                    v4_verify (Map_get "secp256k1" (entries enr)) data s
                | _ => false
                end
        else Err ERR_INVALID_ID
    end.
Proof.
  assert (Hmalformed :
    snd ((i <- id ;;
          if String.eqb i "v4" then pk <- publicKey ;; ret false
          else throw ERR_INVALID_ID) enr) =
      match Map_get "id" (entries enr) with
      | None => Err TypeError
      | Some i =>
          if String.eqb (Buffer_toString i) "v4" then Ok false
          else Err ERR_INVALID_ID
      end).
  { unfold publicKey, id, get, bind, ret, throw.
    destruct (Map_get "id" (entries enr)) as [i |] eqn:Hid; [| reflexivity].
    destruct (String.eqb (Buffer_toString i) "v4") eqn:E; [| reflexivity].
    rewrite Hid, E. reflexivity. }
  destruct signature as [[s | l] |]; cbn [verifyItem];
    [apply verify_run | exact Hmalformed | exact Hmalformed].
Qed.

Lemma Object_set_error (k : ENRKey) (v : ENRValue) (obj : JSObject) (e : Error) :
  Object_set k v obj = Err e -> e = TypeError.
Proof.
  unfold Object_set.
  destruct (String.eqb k "__proto__"); [discriminate |].
  destruct (Map_get k (own obj)); [discriminate |].
  destruct (proto obj) as [p |]; [| discriminate].
  destruct (inheritedSet p k) as [[|] |]; congruence.
Qed.

Lemma assignEntries_error (n : nat) (kvs : list RLP.Decoded) (obj : JSObject) (e : Error) :
  length kvs <= n -> assignEntries kvs obj = Err e -> e = TypeError.
Proof.
  revert kvs obj.
  induction n as [| n IH]; intros kvs obj Hlen H.
  - destruct kvs; [discriminate | simpl in Hlen; lia].
  - destruct kvs as [| k [| v kvs]]; [discriminate | cbn in H; congruence |].
    cbn [assignEntries] in H.
    destruct (Object_set _ _ obj) as [obj' | e'] eqn:E; cbn [result_bind] in H.
    + apply (IH kvs obj'); [simpl in Hlen; lia | exact H].
    + injection H as <-. now apply Object_set_error in E.
Qed.

Lemma toBigIntBE_item_error (seq : option RLP.Decoded) (e : Error) :
  toBigIntBE_item seq = Err e -> e = PackageError.
Proof.
  unfold toBigIntBE_item.
  destruct seq as [[b | l] |]; try discriminate;
    destruct (toBigIntBE_other _); congruence.
Qed.

(** What a successful [decode] returns: a record made of an object and an
    integer. *)
Lemma decode_ok_inv (encoded : Buffer) (enr : ENR) :
  decode encoded = Ok enr ->
  exists obj n s, enr = new_ENR (Object_entries obj) n s.
Proof.
  intros H. unfold decode in H.
  destruct (RLP.decode encoded) as [[b | items] |]; cbn [result_bind] in H;
    try discriminate.
  destruct (Nat.even (length items)); cbn [negb] in H; [| discriminate].
  cbv zeta in H.
  destruct (assignEntries _ emptyObject) as [obj |]; cbn [result_bind] in H;
    [| discriminate].
  destruct (toBigIntBE_item _) as [n |]; cbn [result_bind] in H; [| discriminate].
  destruct (snd (verifyItem _ _ _)) as [[|] |]; cbn [result_bind] in H;
    try discriminate.
  injection H as <-. now eexists _, _, _.
Qed.

(** C5, as amended: [decode] returns a record only after [verify] has
    answered true for the signature received, a byte string, over the
    encoding of [[seq, k, v, ...]], the items after the signature as they
    were received, under the scheme and the public key of the record
    itself; it fails with [InvalidSignature] when, and only when, [verify]
    answers false.  Every other failure comes before that answer (the bytes
    are not a list, the number of items is odd, the scheme is unknown, the
    runtime or a package throws), and a failure returns no record. *)
Theorem decode_returns_only_verified_records (encoded : Buffer) :
  (forall enr, decode encoded = Ok enr ->
     exists sig seq kvs obj n,
       RLP.decode encoded = Ok (RLP.DList (RLP.DBuffer sig :: seq :: kvs))
       /\ assignEntries kvs emptyObject = Ok obj
       /\ toBigIntBE_item (Some seq) = Ok n
       /\ enr = new_ENR (Object_entries obj) n (Some sig)
       /\ snd (id enr) = Ok "v4"
       /\ v4_verify (Map_get "secp256k1" (entries enr))
            (RLP.encodeDecoded (RLP.DList (seq :: kvs))) sig = true)
  /\ (forall sig seq kvs obj n,
        RLP.decode encoded = Ok (RLP.DList (sig :: seq :: kvs)) ->
        Nat.even (length kvs) = true ->
        assignEntries kvs emptyObject = Ok obj ->
        toBigIntBE_item (Some seq) = Ok n ->
        snd (verifyItem (RLP.encodeDecoded (RLP.DList (seq :: kvs))) (Some sig)
               (new_ENR (Object_entries obj) n (signatureOf (Some sig)))) = Ok false ->
        decode encoded = Err InvalidSignature)
  /\ (decode encoded = Err InvalidSignature ->
      exists sig seq kvs obj n,
        RLP.decode encoded = Ok (RLP.DList (sig :: seq :: kvs))
        /\ assignEntries kvs emptyObject = Ok obj
        /\ toBigIntBE_item (Some seq) = Ok n
        /\ snd (verifyItem (RLP.encodeDecoded (RLP.DList (seq :: kvs))) (Some sig)
                 (new_ENR (Object_entries obj) n (signatureOf (Some sig)))) = Ok false).
Proof.
  split; [| split].
  - intros enr H.
    destruct (RLP.decode encoded) as [[b | items] |] eqn:Hdec;
      try (unfold decode in H; rewrite Hdec in H; discriminate).
    destruct (Nat.even (length items)) eqn:Heven;
      [| unfold decode in H; rewrite Hdec in H; cbn [result_bind] in H;
         rewrite Heven in H; discriminate].
    rewrite (decode_list encoded items Hdec Heven) in H.
    destruct (assignEntries _ emptyObject) as [obj |] eqn:Hobj;
      cbn [result_bind] in H; [| discriminate].
    destruct (toBigIntBE_item _) as [n |] eqn:Hn; cbn [result_bind] in H;
      [| discriminate].
    pose proof (verifyItem_run
                  (RLP.encodeArray (nth_error items 1 :: map Some (skipn 2 items)))
                  (nth_error items 0)
                  (new_ENR (Object_entries obj) n (signatureOf (nth_error items 0))))
      as Hrun.
    destruct (snd (verifyItem _ _ _)) as [[|] |]; cbn [result_bind] in H;
      try discriminate.
    injection H as <-.
    destruct (Map_get "id" _) as [i |] eqn:Hid in Hrun; [| discriminate].
    destruct (String.eqb_spec (Buffer_toString i) "v4") as [Hv4 | _];
      [| discriminate].
    injection Hrun as Hrun.
    destruct items as [| [sig | l] [| seq kvs]]; cbn [nth_error] in Hrun;
      try discriminate.
    cbn [nth_error skipn signatureOf] in *.
    exists sig, seq, kvs, obj, n.
    split; [reflexivity |]. split; [exact Hobj |]. split; [exact Hn |].
    split; [reflexivity |]. split.
    + unfold id, get, bind, ret, throw. rewrite Hid. cbn. now rewrite Hv4.
    + rewrite <- encodeArray_items. cbn [map]. symmetry. exact Hrun.
  - intros sig seq kvs obj n Hdec Heven Hobj Hn Hverify.
    rewrite (decode_list encoded (sig :: seq :: kvs) Hdec) by exact Heven.
    cbn [nth_error skipn]. rewrite Hobj, Hn. cbn [result_bind].
    change (Some seq :: map Some kvs) with (map Some (seq :: kvs)).
    now rewrite encodeArray_items, Hverify.
  - intros H.
    destruct (RLP.decode encoded) as [[b | items] | e] eqn:Hdec.
    + unfold decode in H. rewrite Hdec in H. discriminate.
    + destruct (Nat.even (length items)) eqn:Heven;
        [| unfold decode in H; rewrite Hdec in H; cbn [result_bind] in H;
           rewrite Heven in H; discriminate].
      rewrite (decode_list encoded items Hdec Heven) in H.
      destruct (assignEntries _ emptyObject) as [obj | e] eqn:Hobj;
        cbn [result_bind] in H.
      2: { apply (assignEntries_error (length (skipn 2 items))) in Hobj;
             [congruence | lia]. }
      destruct (toBigIntBE_item _) as [n | e] eqn:Hn; cbn [result_bind] in H.
      2: { apply toBigIntBE_item_error in Hn. congruence. }
      pose proof (verifyItem_run
                    (RLP.encodeArray (nth_error items 1 :: map Some (skipn 2 items)))
                    (nth_error items 0)
                    (new_ENR (Object_entries obj) n (signatureOf (nth_error items 0))))
        as Hrun.
      destruct (snd (verifyItem _ _ _)) as [[|] | e] eqn:Hverify;
        cbn [result_bind] in H; try discriminate.
      * destruct items as [| sig [| seq kvs]].
        -- cbn [skipn assignEntries] in Hobj. injection Hobj as <-.
           cbn in Hrun. discriminate.
        -- discriminate.
        -- cbn [nth_error skipn] in *.
           exists sig, seq, kvs, obj, n.
           split; [reflexivity |]. split; [exact Hobj |]. split; [exact Hn |].
           rewrite <- encodeArray_items. exact Hverify.
      * destruct (Map_get "id" _) as [i |]; [| congruence].
        destruct (String.eqb (Buffer_toString i) "v4"); congruence.
    + unfold decode in H. rewrite Hdec in H. cbn [result_bind] in H.
      apply RLP_decode_error in Hdec. congruence.
Qed.



(** ** Further properties of the specification *)

(** An IPv4 endpoint written through a setter is read back through the
    getter: the getter gives what the [Multiaddr] constructor makes of the
    same address and port.  The setter calls [set] twice: the sequence
    number grows by 2 and the signature is cleared. *)
Theorem endpoint_set_then_get (this : ENR) (ip port : Buffer) (p : N) :
  readUInt16BE port = Ok p ->
  let udp := [mkSegment 4 "ip4" ip; mkSegment 273 "udp" port] in
  let tcp := [mkSegment 4 "ip4" ip; mkSegment 6 "tcp" port] in
  let afterUDP := fst (set_multiaddrUDP (Some udp) this) in
  let afterTCP := fst (set_multiaddrTCP (Some tcp) this) in
  snd (set_multiaddrUDP (Some udp) this) = Ok tt
  /\ snd (set_multiaddrTCP (Some tcp) this) = Ok tt
  /\ multiaddrUDP afterUDP =
       (afterUDP,
        (multiaddr <- newMultiaddr (multiaddrText "ip4" (ip4Str ip) "udp" p) ;;
         Ok (Some multiaddr))%result)
  /\ multiaddrTCP afterTCP =
       (afterTCP,
        (multiaddr <- newMultiaddr (multiaddrText "ip4" (ip4Str ip) "tcp" p) ;;
         Ok (Some multiaddr))%result)
  /\ seq afterUDP = (seq this + 2)%N
  /\ signature afterUDP = None.
Proof.
  intros Hport udp tcp afterUDP afterTCP.
  assert (Hu : entries afterUDP = Map_set "udp" port (Map_set "ip" ip (entries this)))
    by reflexivity.
  assert (Ht : entries afterTCP = Map_set "tcp" port (Map_set "ip" ip (entries this)))
    by reflexivity.
  split; [reflexivity |]. split; [reflexivity |].
  split; [| split; [| split; [| reflexivity]]].
  - unfold multiaddrUDP.
    rewrite (multiaddrGetter_ipv4 "udp" afterUDP ip port).
    + unfold endpoint4. now rewrite Hport.
    + rewrite Hu, Map_get_set_other by discriminate. apply Map_get_set_same.
    + rewrite Hu. apply Map_get_set_same.
  - unfold multiaddrTCP.
    rewrite (multiaddrGetter_ipv4 "tcp" afterTCP ip port).
    + unfold endpoint4. now rewrite Hport.
    + rewrite Ht, Map_get_set_other by discriminate. apply Map_get_set_same.
    + rewrite Ht. apply Map_get_set_same.
  - unfold afterUDP. cbn. lia.
Qed.

(** [decode] fails with [MalformedRecord] when the codec rejects the bytes,
    when they are not the encoding of a list, and when the list has an odd
    number of items. *)
Theorem decode_rejects_malformed (encoded : Buffer) :
  (forall e, RLP.decode encoded = Err e -> decode encoded = Err MalformedRecord)
  /\ (forall b, RLP.decode encoded = Ok (RLP.DBuffer b) ->
        decode encoded = Err MalformedRecord)
  /\ (forall items, RLP.decode encoded = Ok (RLP.DList items) ->
        Nat.even (length items) = false ->
        decode encoded = Err MalformedRecord).
Proof.
  unfold decode. repeat split.
  - intros e H. rewrite H. apply RLP_decode_error in H. now subst.
  - intros b H. now rewrite H.
  - intros items H Hodd. rewrite H. cbn [result_bind]. now rewrite Hodd.
Qed.

(** [encode()] without a private key on a record without a signature fails
    with [ERR_NO_SIGNATURE] and leaves the record as it was; on a record
    with a signature it signs nothing and leaves it as it was. *)
Theorem encode_without_key_needs_signature (this : ENR) :
  (signature this = None -> encode None this = (this, Err ERR_NO_SIGNATURE))
  /\ fst (encode None this) = this.
Proof.
  rewrite encode_without_key.
  destruct (signature this) as [s |]; split; try reflexivity; discriminate.
Qed.

(** A record whose "id" entry is not "v4": signing, verifying, the node
    identifier and [encode] with a private key all fail with
    [ERR_INVALID_ID], and the record is left as it was. *)
Theorem unknown_scheme_is_rejected
    (this : ENR) (i data sig privateKey : Buffer) :
  Map_get "id" (entries this) = Some i ->
  Buffer_toString i <> "v4" ->
  sign data privateKey this = (this, Err ERR_INVALID_ID)
  /\ verify data sig this = (this, Err ERR_INVALID_ID)
  /\ nodeId this = (this, Err ERR_INVALID_ID)
  /\ encode (Some privateKey) this = (this, Err ERR_INVALID_ID).
Proof.
  intros Hid Hne.
  apply String.eqb_neq in Hne.
  rewrite encode_with_key.
  unfold sign, verify, nodeId, id, get, bind, ret, throw.
  rewrite Hid, Hne. repeat split.
Qed.


(** ** The order of insertion

    When the comparator orders the keys totally, no two different keys
    comparing as equal, the sorted keys, and with them the bytes, do not
    depend on the order in which the entries were put in the map. *)








(** ** The constructor and the keys of a record *)

Lemma lastValue_app (k : ENRKey) (l l' : list (ENRKey * ENRValue)) :
  lastValue k (l ++ l') =
    match lastValue k l' with
    | Some v => Some v
    | None => lastValue k l
    end.
Proof.
  induction l as [| [k0 v0] l IH]; cbn [app lastValue].
  - now destruct (lastValue k l').
  - rewrite IH. now destruct (lastValue k l').
Qed.

(** [createV4(publicKey, kvs)] makes a record of the scheme v4 with that
    public key whatever [kvs] holds, an "id" or a "secp256k1" entry of
    [kvs] being overwritten: the scheme, the kind of key pair, the public
    key and the node identifier are those of [publicKey].  Every other key
    has the value [kvs] gives it last; the sequence number is 1 and there is
    no signature. *)
Theorem createV4_fixes_scheme_and_key
    (pk : Buffer) (kvs : list (ENRKey * ENRValue)) :
  let this := createV4 pk kvs in
  id this = (this, Ok "v4")
  /\ keypairType this = (this, Ok secp256k1)
  /\ publicKey this = (this, Ok (Some pk))
  /\ nodeId this = (this, Ok (v4_nodeId (Some pk)))
  /\ seq this = 1%N
  /\ signature this = None
  /\ (forall k, k <> "id" -> k <> "secp256k1" ->
        Map_get k (entries this) = lastValue k kvs).
Proof.
  intros this.
  assert (Hid : Map_get "id" (entries this) = Some (Buffer_from "v4")).
  { unfold this, createV4, new_ENR. cbn [entries].
    rewrite Map_get_Map_of_entries, lastValue_app. reflexivity. }
  assert (Hpk : Map_get "secp256k1" (entries this) = Some pk).
  { unfold this, createV4, new_ENR. cbn [entries].
    rewrite Map_get_Map_of_entries, lastValue_app. reflexivity. }
  assert (Hidrun : id this = (this, Ok "v4")).
  { unfold id, get, bind, ret. now rewrite Hid. }
  split; [exact Hidrun |].
  split; [unfold keypairType, bind; now rewrite Hidrun |].
  assert (Hpkrun : publicKey this = (this, Ok (Some pk))).
  { unfold publicKey, bind. rewrite Hidrun. cbn. unfold get. now rewrite Hpk. }
  split; [exact Hpkrun |].
  split.
  { unfold nodeId, bind. rewrite Hidrun. cbn. now rewrite Hpkrun. }
  split; [reflexivity |]. split; [reflexivity |].
  intros k Hk1 Hk2.
  unfold this, createV4, new_ENR. cbn [entries].
  rewrite Map_get_Map_of_entries, lastValue_app.
  cbn [lastValue].
  destruct (String.eqb_spec "secp256k1" k) as [<- | _]; [congruence |].
  destruct (String.eqb_spec "id" k) as [<- | _]; [congruence | reflexivity].
Qed.


(** A setter given an endpoint, as one case analysis: the endpoint is
    refused and nothing is written, or both entries are written. *)
Lemma multiaddrSetter_outcome (transport : string) (multiaddr : Multiaddr) (this : ENR) :
  multiaddrSetter transport (Some multiaddr) this =
    match multiaddr with
    | s0 :: s1 :: rest =>
        if negb (length multiaddr =? 2)%nat && negb (String.eqb (protoName s1) transport)
        then (this, Err InvalidEndpoint)
        else
          let ipKey := if (protoCode s0 =? 4)%N then "ip" else "ip6" in
          let portKey :=
            if (protoCode s0 =? 4)%N then transport else (transport ++ "6")%string in
          (mkENR (Map_set portKey (segmentValue s1)
                    (Map_set ipKey (segmentValue s0) (entries this)))
             (seq this + 1 + 1)%N None,
           Ok tt)
    | _ => (this, Err InvalidEndpoint)
    end.
Proof.
  unfold multiaddrSetter, protoNames, tuples.
  destruct multiaddr as [| s0 [| s1 rest]]; [reflexivity | reflexivity |].
  cbn [map nth_error differs length].
  rewrite length_map.
  destruct (negb (S (S (length rest)) =? 2)%nat && negb (String.eqb (protoName s1) transport));
    [reflexivity |].
  unfold index, bind, ret, set, assign_signature, increment_seq, super_set.
  cbn [nth_error fst snd].
  destruct (protoCode s0 =? 4)%N; reflexivity.
Qed.

(** A record holds every key once.  The constructor makes such a record of
    any list of pairs, a key written twice included, and so does [decode];
    [set], the endpoint setters and [encode] keep it so, and [encode] writes
    every key of the record once. *)
Theorem keys_stay_unique :
  (forall kvs n s, NoDup (Map_keys (entries (new_ENR kvs n s))))
  /\ (forall encoded enr, decode encoded = Ok enr -> NoDup (Map_keys (entries enr)))
  /\ (forall this, NoDup (Map_keys (entries this)) ->
        (forall k v, NoDup (Map_keys (entries (fst (set k v this)))))
        /\ (forall transport multiaddr,
              NoDup (Map_keys (entries (fst (multiaddrSetter transport multiaddr this)))))
        /\ (forall privateKey,
              NoDup (Map_keys (entries (fst (encode privateKey this)))))
        /\ NoDup (sortedKeys this)).
Proof.
  split; [| split].
  - intros kvs n s. apply Map_of_entries_NoDup.
  - intros encoded enr H.
    destruct (decode_ok_inv encoded enr H) as (obj & n & s & ->).
    apply Map_of_entries_NoDup.
  - intros this Hnodup.
    split; [| split; [| split]].
    + intros k v. now apply Map_set_NoDup.
    + intros transport [multiaddr |]; [| exact Hnodup].
      rewrite multiaddrSetter_outcome.
      destruct multiaddr as [| s0 [| s1 rest]]; try exact Hnodup.
      destruct (negb _ && negb _); [exact Hnodup |].
      cbv zeta. cbn [fst entries].
      now apply Map_set_NoDup, Map_set_NoDup.
    + intros [privateKey |].
      * rewrite encode_with_key.
        destruct (Map_get "id" (entries this)) as [i |]; [| exact Hnodup].
        destruct (String.eqb (Buffer_toString i) "v4"); exact Hnodup.
      * rewrite encode_without_key.
        destruct (signature this); exact Hnodup.
    + unfold sortedKeys.
      apply (Permutation_NoDup (l := Map_keys (entries this))); [| exact Hnodup].
      symmetry. apply Array_sort_perm.
Qed.

(** An endpoint setter given an endpoint does all or nothing.  It refuses
    the endpoint with [InvalidEndpoint], the record being left as it was:
    this it does for every endpoint of fewer than two segments.  Or it
    writes the address and the port, the values of the first two segments,
    under "ip" and the transport when the code of the first segment is 4 and
    under "ip6" and the transport followed by "6" otherwise; the sequence
    number is then larger by 2 and the signature cleared.  No other error
    is thrown, and the record is never left with one of the two entries
    written. *)
Theorem endpoint_setter_all_or_nothing
    (transport : string) (multiaddr : Multiaddr) (this : ENR) :
  (length multiaddr < 2 ->
     multiaddrSetter transport (Some multiaddr) this = (this, Err InvalidEndpoint))
  /\ (multiaddrSetter transport (Some multiaddr) this = (this, Err InvalidEndpoint)
      \/ exists s0 s1 rest,
           multiaddr = s0 :: s1 :: rest
           /\ snd (multiaddrSetter transport (Some multiaddr) this) = Ok tt
           /\ entries (fst (multiaddrSetter transport (Some multiaddr) this)) =
                (if (protoCode s0 =? 4)%N
                 then Map_set transport (segmentValue s1)
                        (Map_set "ip" (segmentValue s0) (entries this))
                 else Map_set (transport ++ "6")%string (segmentValue s1)
                        (Map_set "ip6" (segmentValue s0) (entries this)))
           /\ seq (fst (multiaddrSetter transport (Some multiaddr) this)) = (seq this + 2)%N
           /\ signature (fst (multiaddrSetter transport (Some multiaddr) this)) = None).
Proof.
  rewrite multiaddrSetter_outcome.
  destruct multiaddr as [| s0 [| s1 rest]].
  - split; [reflexivity | now left].
  - split; [reflexivity | now left].
  - split; [cbn [length]; lia |].
    destruct (negb _ && negb _); [now left |].
    right. exists s0, s1, rest. cbv zeta. cbn [fst snd entries seq signature].
    split; [reflexivity |]. split; [reflexivity |].
    split; [now destruct (protoCode s0 =? 4)%N |].
    split; [lia | reflexivity].
Qed.


(** ** Writing, signing and encoding again *)

(** A record that was written to cannot be encoded without a private key:
    after [set], and after an endpoint setter that accepted its endpoint,
    [encode()] fails with [ERR_NO_SIGNATURE], whatever signature the record
    held before and also when the value written is the one already there. *)
Theorem written_record_needs_new_signature (this : ENR) :
  (forall k v,
     encode None (fst (set k v this)) = (fst (set k v this), Err ERR_NO_SIGNATURE))
  /\ (forall transport multiaddr,
        snd (multiaddrSetter transport (Some multiaddr) this) = Ok tt ->
        encode None (fst (multiaddrSetter transport (Some multiaddr) this)) =
          (fst (multiaddrSetter transport (Some multiaddr) this), Err ERR_NO_SIGNATURE)).
Proof.
  split.
  - intros k v. now rewrite encode_without_key.
  - intros transport multiaddr.
    rewrite multiaddrSetter_outcome.
    destruct multiaddr as [| s0 [| s1 rest]]; try discriminate.
    destruct (negb _ && negb _); [discriminate |].
    intros _. now rewrite encode_without_key.
Qed.

(** After [encode(privateKey)] on a record of the scheme v4, [encode()]
    gives the same outcome without signing again: the same bytes, or the
    same [RecordTooLarge], and the record stays as the first call left it. *)
Theorem encode_again_without_key (privateKey : Buffer) (this : ENR) :
  snd (id this) = Ok "v4" ->
  encode None (fst (encode (Some privateKey) this)) = encode (Some privateKey) this.
Proof.
  intros Hid.
  rewrite encode_with_key.
  unfold id, get, bind, ret, throw in Hid.
  destruct (Map_get "id" (entries this)) as [i |]; simpl in Hid; [| discriminate].
  injection Hid as Hid. rewrite Hid. simpl String.eqb. cbv iota zeta.
  cbn [fst]. rewrite encode_without_key. cbn [signature]. cbv zeta.
  rewrite (content_signature _ _ _ (signature this)).
  replace (mkENR (entries this) (seq this) (signature this)) with this
    by now destruct this.
  reflexivity.
Qed.

(** [encode] writes nothing but the signature: the entries and the sequence
    number are as before whether it returns or throws, with a private key
    and without one.  [sign] changes the signature alone. *)
Theorem encode_changes_signature_only
    (privateKey : option Buffer) (signingKey data : Buffer) (this : ENR) :
  entries (fst (encode privateKey this)) = entries this
  /\ seq (fst (encode privateKey this)) = seq this
  /\ entries (fst (sign data signingKey this)) = entries this
  /\ seq (fst (sign data signingKey this)) = seq this.
Proof.
  assert (Hsign : entries (fst (sign data signingKey this)) = entries this
                  /\ seq (fst (sign data signingKey this)) = seq this).
  { unfold sign, id, get, bind, ret, throw, assign_signature.
    destruct (Map_get "id" (entries this)) as [i |]; [| now split].
    destruct (String.eqb (Buffer_toString i) "v4"); now split. }
  destruct privateKey as [privateKey |].
  - rewrite encode_with_key.
    destruct (Map_get "id" (entries this)) as [i |].
    + destruct (String.eqb (Buffer_toString i) "v4");
        (split; [reflexivity |]); (split; [reflexivity | exact Hsign]).
    + split; [reflexivity |]. split; [reflexivity | exact Hsign].
  - rewrite encode_without_key.
    destruct (signature this);
      (split; [reflexivity |]); (split; [reflexivity | exact Hsign]).
Qed.

(** What [sign] stores is what [verify] accepts: on a record of the scheme
    v4 whose "secp256k1" entry is the public key of the private key, [sign]
    returns the signature of the scheme, stores it in the record, and
    [verify] of the same data and that signature answers true. *)
Theorem sign_then_verify (data privateKey : Buffer) (this : ENR) :
  sign_verify_law ->
  snd (id this) = Ok "v4" ->
  Map_get "secp256k1" (entries this) = Some (publicKeyOf privateKey) ->
  let signed := fst (sign data privateKey this) in
  snd (sign data privateKey this) = Ok (v4_sign privateKey data)
  /\ signature signed = Some (v4_sign privateKey data)
  /\ verify data (v4_sign privateKey data) signed = (signed, Ok true).
Proof.
  intros Hlaw Hid Hpk.
  unfold id, get, bind, ret, throw in Hid.
  destruct (Map_get "id" (entries this)) as [i |] eqn:Hi; simpl in Hid;
    [| discriminate].
  injection Hid as Hid.
  assert (Hsign : sign data privateKey this =
            (mkENR (entries this) (seq this) (Some (v4_sign privateKey data)),
             Ok (v4_sign privateKey data))).
  { unfold sign, id, get, bind, ret, throw, assign_signature.
    rewrite Hi, Hid. reflexivity. }
  rewrite Hsign. cbn [fst snd signature].
  split; [reflexivity |]. split; [reflexivity |].
  unfold verify, publicKey, id, get, bind, ret, throw. cbn [entries].
  rewrite Hi, Hid, String.eqb_refl. cbv beta iota. cbn [entries].
  rewrite Hi. cbv beta iota. rewrite Hid, String.eqb_refl. cbv beta iota.
  cbn [entries]. rewrite Hpk, Hlaw. reflexivity.
Qed.

(** A record without an "id" entry: the scheme cannot be read, and [id],
    [keypairType], [publicKey], [nodeId], [verify], [sign] and [encode]
    with a private key all fail with the [TypeError] of the runtime, the
    record being left as it was. *)
Theorem missing_scheme_is_a_type_error
    (this : ENR) (data sig privateKey : Buffer) :
  Map_get "id" (entries this) = None ->
  id this = (this, Err TypeError)
  /\ keypairType this = (this, Err TypeError)
  /\ publicKey this = (this, Err TypeError)
  /\ nodeId this = (this, Err TypeError)
  /\ verify data sig this = (this, Err TypeError)
  /\ sign data privateKey this = (this, Err TypeError)
  /\ encode (Some privateKey) this = (this, Err TypeError).
Proof.
  intros Hid.
  rewrite encode_with_key.
  unfold sign, verify, nodeId, publicKey, keypairType, id, get, bind, ret, throw.
  rewrite Hid. repeat split.
Qed.

(** ** Endpoint views and the other entries *)

Lemma multiaddrSetter_other_keys
    (transport : string) (multiaddr : option Multiaddr) (this : ENR) (k : ENRKey) :
  k <> "ip" -> k <> "ip6" -> k <> transport -> k <> (transport ++ "6")%string ->
  Map_get k (entries (fst (multiaddrSetter transport multiaddr this))) =
    Map_get k (entries this).
Proof.
  intros H1 H2 H3 H4.
  destruct multiaddr as [multiaddr |]; [| reflexivity].
  rewrite multiaddrSetter_outcome.
  destruct multiaddr as [| s0 [| s1 rest]]; try reflexivity.
  destruct (negb _ && negb _); [reflexivity |].
  cbv zeta. cbn [fst entries].
  destruct (protoCode s0 =? 4)%N;
    rewrite !Map_get_set_other by congruence; reflexivity.
Qed.

(** An endpoint setter writes to its own keys only: "ip", "ip6", the
    transport and the transport followed by "6".  Every other entry is as
    before, the "id" and "secp256k1" entries among them: the scheme, the
    public key and the node identifier of the record are not changed by
    setting an endpoint. *)
Theorem endpoint_setters_keep_other_entries
    (multiaddr : option Multiaddr) (this : ENR) :
  (forall transport k,
     k <> "ip" -> k <> "ip6" -> k <> transport -> k <> (transport ++ "6")%string ->
     Map_get k (entries (fst (multiaddrSetter transport multiaddr this))) =
       Map_get k (entries this))
  /\ snd (id (fst (set_multiaddrUDP multiaddr this))) = snd (id this)
  /\ snd (id (fst (set_multiaddrTCP multiaddr this))) = snd (id this)
  /\ snd (publicKey (fst (set_multiaddrUDP multiaddr this))) = snd (publicKey this)
  /\ snd (publicKey (fst (set_multiaddrTCP multiaddr this))) = snd (publicKey this)
  /\ snd (nodeId (fst (set_multiaddrUDP multiaddr this))) = snd (nodeId this)
  /\ snd (nodeId (fst (set_multiaddrTCP multiaddr this))) = snd (nodeId this).
Proof.
  split.
  { intros transport k. apply multiaddrSetter_other_keys. }
  assert (Hudp : forall k, k = "id" \/ k = "secp256k1" ->
            Map_get k (entries (fst (set_multiaddrUDP multiaddr this))) =
              Map_get k (entries this)).
  { intros k [-> | ->]; apply multiaddrSetter_other_keys; discriminate. }
  assert (Htcp : forall k, k = "id" \/ k = "secp256k1" ->
            Map_get k (entries (fst (set_multiaddrTCP multiaddr this))) =
              Map_get k (entries this)).
  { intros k [-> | ->]; apply multiaddrSetter_other_keys; discriminate. }
  assert (Hid : forall enr,
            snd (id enr) =
              match Map_get "id" (entries enr) with
              | Some i => Ok (Buffer_toString i)
              | None => Err TypeError
              end).
  { intros enr. unfold id, get, bind, ret, throw.
    now destruct (Map_get "id" (entries enr)). }
  assert (Hpk : forall enr,
            snd (publicKey enr) =
              match Map_get "id" (entries enr) with
              | None => Err TypeError
              | Some i =>
                  if String.eqb (Buffer_toString i) "v4"
                  then Ok (Map_get "secp256k1" (entries enr))
                  else Err ERR_INVALID_ID
              end).
  { intros enr. unfold publicKey, id, get, bind, ret, throw.
    destruct (Map_get "id" (entries enr)) as [i |]; [| reflexivity].
    now destruct (String.eqb (Buffer_toString i) "v4"). }
  rewrite !Hid, !Hpk, !nodeId_run.
  rewrite !(Hudp "id"), !(Htcp "id"), (Hudp "secp256k1"), (Htcp "secp256k1")
    by (now left) || (now right).
  repeat split.
Qed.

(** A getter without an endpoint to give, and one with a port it cannot
    read.  When the address or the port is absent for IPv4 and for IPv6,
    the getter returns [undefined].  When address and port are there and
    the port entry has fewer than 2 bytes, the getter throws a
    [RangeError]: for IPv4 it does so whatever the IPv6 entries are, which
    are not tried. *)
Theorem endpoint_getter_absent_or_unreadable (transport : string) (this : ENR) :
  ((Map_get "ip" (entries this) = None \/ Map_get transport (entries this) = None) ->
   (Map_get "ip6" (entries this) = None
    \/ Map_get (transport ++ "6")%string (entries this) = None) ->
   multiaddrGetter transport this = (this, Ok None))
  /\ (forall ip4 port4,
        Map_get "ip" (entries this) = Some ip4 ->
        Map_get transport (entries this) = Some port4 ->
        length port4 < 2 ->
        multiaddrGetter transport this = (this, Err RangeError))
  /\ (forall ip6 port6,
        (Map_get "ip" (entries this) = None \/ Map_get transport (entries this) = None) ->
        Map_get "ip6" (entries this) = Some ip6 ->
        Map_get (transport ++ "6")%string (entries this) = Some port6 ->
        length port6 < 2 ->
        multiaddrGetter transport this = (this, Err RangeError)).
Proof.
  assert (Hshort : forall port : Buffer, length port < 2 -> readUInt16BE port = Err RangeError).
  { intros [| b0 [| b1 port]] H; [reflexivity | reflexivity |].
    cbn [length] in H. lia. }
  split; [| split].
  - intros H4 H6. rewrite (multiaddrGetter_ipv6 transport this H4).
    destruct H6 as [-> | ->]; [reflexivity |].
    now destruct (Map_get "ip6" (entries this)).
  - intros ip4 port4 Hip Hport Hlen.
    rewrite (multiaddrGetter_ipv4 transport this ip4 port4 Hip Hport).
    unfold endpoint4. now rewrite (Hshort port4 Hlen).
  - intros ip6 port6 H4 Hip Hport Hlen.
    rewrite (multiaddrGetter_ipv6 transport this H4), Hip, Hport.
    unfold endpoint6. now rewrite (Hshort port6 Hlen).
Qed.


(** ** What [decode] accepts *)

(** [decode] asks for a signature that verifies, and for nothing else of
    what [encode] guarantees.  Given any signature, any bytes for the
    sequence number and any list of pairs with plain keys, in any order and
    with keys repeated: when the record made of them is of the scheme v4
    and its public key verifies the signature over the encoding of
    [[seq, k, v, ...]], [decode] returns that record from the encoding of
    [[signature, seq, k, v, ...]].  The record holds under a key the last
    value the list gives it, and its sequence number is the integer the
    bytes hold, leading zeros allowed.  The keys need not be sorted, and
    the encoding may have 300 bytes and more. *)
Theorem decode_accepts_what_verifies
    (sig seqBytes : Buffer) (obj : list (ENRKey * ENRValue)) :
  let encoded := RLP.encode (map RLP.IBuf (sig :: seqBytes :: keyValueItems obj)) in
  let enr :=
    new_ENR (Object_entries (mkObject (Map_of_entries obj) None))
      (toBigIntBE seqBytes) (Some sig) in
  (N.of_nat (length encoded) < 2 ^ 64)%N ->
  forallb (fun kv => plainKey (fst kv)) obj = true ->
  snd (id enr) = Ok "v4" ->
  v4_verify (Map_get "secp256k1" (entries enr))
    (RLP.encode (map RLP.IBuf (seqBytes :: keyValueItems obj))) sig = true ->
  decode encoded = Ok enr
  /\ seq enr = toBigIntBE seqBytes
  /\ forall k, Map_get k (entries enr) = lastValue k obj.
Proof.
  intros encoded enr Hsize Hplain Hid Hverify.
  split; [| split; [reflexivity |]].
  - unfold encoded.
    rewrite (decode_of_items sig seqBytes obj Hsize Hplain).
    fold enr. rewrite verify_run.
    unfold id, get, bind, ret, throw in Hid.
    destruct (Map_get "id" (entries enr)) as [i |]; simpl in Hid; [| discriminate].
    injection Hid as Hid. rewrite Hid, String.eqb_refl.
    cbn [result_bind]. now rewrite Hverify.
  - intros k. unfold enr, new_ENR. cbn [entries].
    rewrite Map_get_Object_entries by apply Map_of_entries_NoDup.
    cbn [own]. apply Map_get_Map_of_entries.
Qed.

(** ** The text form *)

(** The text [encodeTxt(privateKey)] returns starts with "enr:", and
    [decodeTxt] reads the record back from it: same signature, same
    sequence number, the same value under every key, the same node
    identifier.  This holds for a record of the scheme v4 whose "secp256k1"
    entry is the public key of the private key, whose sequence number is
    below 2^53 and whose keys are plain, [base64url.toBuffer] reading back
    what [base64url.encode] wrote.  A text that does not start with "enr:"
    is refused before anything is decoded. *)
Theorem decodeTxt_encodeTxt_round_trip
    (privateKey : Buffer) (this this' : ENR) (txt : string) :
  base64url_law ->
  sign_verify_law ->
  forallb plainKey (Map_keys (entries this)) = true ->
  Map_get "secp256k1" (entries this) = Some (publicKeyOf privateKey) ->
  (seq this < 2 ^ 53)%N ->
  encodeTxt privateKey this = (this', Ok txt) ->
  String.prefix "enr:" txt = true
  /\ (exists enr,
        decodeTxt txt = Ok enr
        /\ signature enr = signature this'
        /\ seq enr = seq this'
        /\ (forall k, Map_get k (entries enr) = Map_get k (entries this'))
        /\ snd (nodeId enr) = snd (nodeId this'))
  /\ (forall other,
        String.prefix "enr:" other = false -> decodeTxt other = Err MalformedRecord).
Proof.
  intros Hb64 Hlaw Hplain Hpk Hseq Htxt.
  unfold encodeTxt, bind, ret in Htxt.
  destruct (encode (Some privateKey) this) as [this'' [encoded | e]] eqn:Henc;
    [| discriminate].
  injection Htxt as <- <-.
  assert (Hprefix : String.prefix "enr:" ("enr:" ++ base64url_encode encoded) = true)
    by (cbn; now destruct (base64url_encode encoded)).
  split; [exact Hprefix |]. split.
  - destruct (decode_encode_core privateKey this this'' encoded Hlaw Hplain Hpk Henc)
      as (enr & Hdec & Hsig & Hs & Hget).
    destruct (encode_success_inv privateKey this this'' encoded Henc)
      as (Hthis' & _ & _).
    exists enr.
    split.
    { unfold decodeTxt. cbn [String.append] in Hprefix. rewrite Hprefix.
      cbn [slice]. now rewrite Hb64. }
    split; [exact Hsig |].
    subst this''. cbn [seq entries].
    split; [rewrite Hs; now apply decodedSeq_exact |].
    split; [exact Hget |].
    rewrite !nodeId_run. cbn [entries]. now rewrite !Hget.
  - intros other Hother. unfold decodeTxt. now rewrite Hother.
Qed.


(** ** Encoding for others to decode *)

(** [encode(privateKey)] does not check the private key against the public
    key of the record: it signs and returns the bytes.  When the signature
    so made does not verify under the public key of the record, these bytes
    are refused by [decode] with [InvalidSignature].  The keys of the record
    are plain: past a key named __proto__, what [decode] does is the
    runtime's, and it may throw before it comes to the signature. *)
Theorem encode_with_another_key_is_refused_by_decode
    (privateKey : Buffer) (this this' : ENR) (encoded : Buffer) :
  snd (id this) = Ok "v4" ->
  forallb plainKey (Map_keys (entries this)) = true ->
  encode (Some privateKey) this = (this', Ok encoded) ->
  v4_verify (Map_get "secp256k1" (entries this)) (RLP.encode (content this))
    (v4_sign privateKey (RLP.encode (content this))) = false ->
  signature this' = Some (v4_sign privateKey (RLP.encode (content this)))
  /\ decode encoded = Err InvalidSignature.
Proof.
  intros Hid Hplain Henc Hverify.
  split.
  - destruct (encode_success_inv privateKey this this' encoded Henc) as (-> & _ & _).
    reflexivity.
  - rewrite (decode_of_encode privateKey this this' encoded Hid Hplain Henc).
    cbv zeta. now rewrite Hverify.
Qed.


(** ** A key named __proto__ *)

Lemma assignEntries_plain_then
    (before : list (ENRKey * ENRValue)) (rest : list RLP.Decoded) (m : JSMap) :
  forallb (fun kv => plainKey (fst kv)) before = true ->
  assignEntries (map RLP.DBuffer (keyValueItems before) ++ rest) (mkObject m None) =
    assignEntries rest
      (mkObject (fold_left (fun m kv => Map_set (fst kv) (snd kv) m) before m) None).
Proof.
  revert m.
  induction before as [| [k v] before IH]; intros m H; [reflexivity |].
  cbn [forallb fst] in H. apply andb_prop in H. destruct H as [Hk Hrest].
  unfold keyValueItems.
  cbn [flat_map app map fst snd assignEntries Item_toString Buffer_from_item].
  rewrite (utf8_toString_plain k Hk), (Object_set_plain k v m Hk).
  cbn [result_bind fold_left fst snd].
  exact (IH (Map_set k v m) Hrest).
Qed.

Lemma assignEntries_inherited
    (p : Buffer) (after : list (ENRKey * ENRValue)) (m : JSMap) :
  forallb (fun kv => plainKey (fst kv)) after = true ->
  (forall kv, In kv after -> inheritedSet p (fst kv) = Some true) ->
  assignEntries (map RLP.DBuffer (keyValueItems after)) (mkObject m (Some p)) =
    Ok (mkObject (fold_left (fun m kv => Map_set (fst kv) (snd kv) m) after m)
          (Some p)).
Proof.
  revert m.
  induction after as [| [k v] after IH]; intros m H Hcreated; [reflexivity |].
  cbn [forallb fst] in H. apply andb_prop in H. destruct H as [Hk Hrest].
  unfold keyValueItems.
  cbn [flat_map app map fst snd assignEntries Item_toString Buffer_from_item].
  rewrite (utf8_toString_plain k Hk).
  assert (Hset : Object_set k v (mkObject m (Some p)) =
                   Ok (mkObject (Map_set k v m) (Some p))).
  { unfold plainKey in Hk. apply andb_prop in Hk. destruct Hk as [_ Hk].
    apply negb_true_iff in Hk. unfold Object_set. rewrite Hk. cbn [own proto].
    destruct (Map_get k m); [reflexivity |].
    pose proof (Hcreated (k, v) (or_introl eq_refl)) as Hk'. cbn [fst] in Hk'.
    now rewrite Hk'. }
  rewrite Hset. cbn [result_bind fold_left fst snd].
  apply IH; [exact Hrest |].
  intros kv Hin. apply Hcreated. now right.
Qed.

(** A pair keyed __proto__ among the items received makes no entry of the
    record that [decode] returns, though the signature it has verified is
    over all the items, this pair among them: the record does not hold what
    was signed.  The keys of the other pairs are plain; those that come
    after the pair are assigned through a prototype that is a buffer, and
    the runtime is taken to create their properties, as it does for a key
    that is neither an index nor the name of a property that buffers
    have. *)
Theorem decode_drops_proto_entry
    (sig seqBytes value : Buffer) (before after : list (ENRKey * ENRValue)) :
  let received := before ++ ("__proto__", value) :: after in
  let encoded :=
    RLP.encode (map RLP.IBuf (sig :: seqBytes :: keyValueItems received)) in
  let enr :=
    new_ENR (Object_entries (mkObject (Map_of_entries (before ++ after)) (Some value)))
      (toBigIntBE seqBytes) (Some sig) in
  (N.of_nat (length encoded) < 2 ^ 64)%N ->
  forallb (fun kv => plainKey (fst kv)) (before ++ after) = true ->
  (forall kv, In kv after -> inheritedSet value (fst kv) = Some true) ->
  snd (id enr) = Ok "v4" ->
  v4_verify (Map_get "secp256k1" (entries enr))
    (RLP.encode (map RLP.IBuf (seqBytes :: keyValueItems received))) sig = true ->
  decode encoded = Ok enr
  /\ Map_get "__proto__" (entries enr) = None
  /\ forall k, k <> "__proto__" -> Map_get k (entries enr) = lastValue k received.
Proof.
  intros received encoded enr Hsize Hplain Hcreated Hid Hverify.
  rewrite forallb_app in Hplain. apply andb_prop in Hplain.
  destruct Hplain as [Hbefore Hafter].
  assert (Hget : forall k, Map_get k (entries enr) = lastValue k (before ++ after)).
  { intros k. unfold enr, new_ENR. cbn [entries].
    rewrite Map_get_Object_entries by apply Map_of_entries_NoDup.
    cbn [own]. apply Map_get_Map_of_entries. }
  assert (Hno : forall l : list (ENRKey * ENRValue),
            forallb (fun kv => plainKey (fst kv)) l = true ->
            lastValue "__proto__" l = None).
  { induction l as [| [k v] l IH]; [reflexivity |].
    cbn [forallb fst lastValue]. intros H. apply andb_prop in H.
    destruct H as [Hk Hl]. rewrite (IH Hl).
    unfold plainKey in Hk. apply andb_prop in Hk. destruct Hk as [_ Hk].
    apply negb_true_iff in Hk. now rewrite Hk. }
  split; [| split].
  - unfold encoded.
    rewrite (decode_of_buffers sig seqBytes (keyValueItems received)
               (mkObject (Map_of_entries (before ++ after)) (Some value)) Hsize
               (keyValueItems_even received)).
    + fold enr. rewrite verify_run.
      unfold id, get, bind, ret, throw in Hid.
      destruct (Map_get "id" (entries enr)) as [i |]; simpl in Hid; [| discriminate].
      injection Hid as Hid. rewrite Hid, String.eqb_refl.
      cbn [result_bind]. now rewrite Hverify.
    + unfold received, keyValueItems. rewrite flat_map_app, map_app.
      fold (keyValueItems before).
      unfold emptyObject. rewrite (assignEntries_plain_then before _ [] Hbefore).
      cbn [flat_map app map fst snd assignEntries Item_toString Buffer_from_item].
      assert (Hproto : utf8_toString (Buffer_from "__proto__") = "__proto__")
        by reflexivity.
      rewrite Hproto. unfold Object_set at 1.
      cbn [String.eqb Ascii.eqb Bool.eqb own proto result_bind].
      fold (keyValueItems after).
      rewrite (assignEntries_inherited value after _ Hafter Hcreated).
      unfold Map_of_entries. now rewrite fold_left_app.
  - rewrite Hget. apply Hno. rewrite forallb_app. now rewrite Hbefore, Hafter.
  - intros k Hk. rewrite Hget. unfold received.
    rewrite !lastValue_app. cbn [lastValue].
    destruct (lastValue k after); [reflexivity |].
    destruct (String.eqb_spec "__proto__" k) as [E | _]; [congruence | reflexivity].
Qed.

(** ** IPv6 endpoints *)

(** An IPv6 endpoint written through a setter (a first segment whose code
    is not 4) is stored under "ip6" and the transport followed by "6".
    When the record has no IPv4 address, the getter then calls the
    [Multiaddr] constructor on a text with one hexadecimal group for every
    byte of the address, and gives what the constructor makes of it.  When
    the record has an IPv4 address and the port of the transport, the
    getter calls the constructor on the IPv4 text: the endpoint just
    written is not the one read. *)
Theorem ipv6_endpoint_set_then_get
    (transport : string) (this : ENR) (code portCode : N) (name portName : string)
    (ip port : Buffer) (p : N) :
  transport = "udp" \/ transport = "tcp" ->
  code <> 4%N ->
  readUInt16BE port = Ok p ->
  let endpoint := [mkSegment code name ip; mkSegment portCode portName port] in
  let after := fst (multiaddrSetter transport (Some endpoint) this) in
  snd (multiaddrSetter transport (Some endpoint) this) = Ok tt
  /\ Map_get "ip6" (entries after) = Some ip
  /\ Map_get (transport ++ "6")%string (entries after) = Some port
  /\ (Map_get "ip" (entries this) = None ->
      multiaddrGetter transport after =
        (after,
         (multiaddr <-
            newMultiaddr
              (multiaddrText "ip6"
                 (String.concat ":" (map (fun b => toString16 (Byte.to_N b)) ip))
                 transport p) ;;
          Ok (Some multiaddr))%result))
  /\ (forall ip4 port4 p4,
        Map_get "ip" (entries this) = Some ip4 ->
        Map_get transport (entries this) = Some port4 ->
        readUInt16BE port4 = Ok p4 ->
        multiaddrGetter transport after =
          (after,
           (multiaddr <- newMultiaddr (multiaddrText "ip4" (ip4Str ip4) transport p4) ;;
            Ok (Some multiaddr))%result)).
Proof.
  intros Htransport Hcode Hport endpoint after.
  apply N.eqb_neq in Hcode.
  assert (Hafter : multiaddrSetter transport (Some endpoint) this =
            (mkENR (Map_set (transport ++ "6")%string port
                      (Map_set "ip6" ip (entries this)))
               (seq this + 1 + 1)%N None, Ok tt)).
  { rewrite multiaddrSetter_outcome. unfold endpoint.
    cbn [length Nat.eqb negb andb protoCode segmentValue].
    now rewrite Hcode. }
  unfold after. rewrite Hafter. cbn [fst snd entries].
  assert (Hne : (transport ++ "6")%string <> "ip6"
                /\ (transport ++ "6")%string <> "ip"
                /\ (transport ++ "6")%string <> transport
                /\ "ip6" <> transport).
  { destruct Htransport as [-> | ->]; repeat split; discriminate. }
  destruct Hne as (Hne1 & Hne2 & Hne3 & Hne4).
  assert (H6 : Map_get "ip6" (Map_set (transport ++ "6")%string port
                                (Map_set "ip6" ip (entries this))) = Some ip).
  { rewrite Map_get_set_other by (intros E; now apply Hne1). apply Map_get_set_same. }
  assert (Hp6 : Map_get (transport ++ "6")%string
                  (Map_set (transport ++ "6")%string port
                     (Map_set "ip6" ip (entries this))) = Some port)
    by apply Map_get_set_same.
  split; [reflexivity |]. split; [exact H6 |]. split; [exact Hp6 |].
  split.
  - intros Hnone.
    rewrite multiaddrGetter_ipv6; cbn [entries].
    + rewrite H6, Hp6. unfold endpoint6. now rewrite Hport.
    + left. rewrite !Map_get_set_other by (discriminate || (intros E; now apply Hne2)).
      exact Hnone.
  - intros ip4 port4 p4 Hip4 Hport4 Hp4.
    rewrite (multiaddrGetter_ipv4 transport _ ip4 port4); cbn [entries].
    + unfold endpoint4. now rewrite Hp4.
    + rewrite !Map_get_set_other by (discriminate || (intros E; now apply Hne2)). exact Hip4.
    + rewrite !Map_get_set_other
      by ((intros E; now apply Hne3) || (intros E; now apply Hne4)). exact Hport4.
Qed.

End WithIdentityScheme.

(** * The class on concrete records *)

Lemma Checksum_sign_verify :
  sign_verify_law Checksum.sign Checksum.verify Checksum.publicKey_of.
Proof.
  intros privateKey message.
  unfold Checksum.verify, Checksum.publicKey_of, Checksum.buffer_eqb.
  now destruct (list_eq_dec Byte.byte_eq_dec _ _).
Qed.


(** Signing at [sampleRecord]: the call returns, and the sequence number is
    still 1. *)
Lemma encode_signs_and_keeps_seq_witness :
  let this' := fst (encode Checksum.sign caseFirstCompare
                      (Some samplePrivateKey) sampleRecord) in
  signature this' =
    Some (Checksum.sign samplePrivateKey
            (RLP.encode (content caseFirstCompare sampleRecord)))
  /\ seq this' = seq sampleRecord
  /\ entries this' = entries sampleRecord.
Proof.
  apply (encode_signs_and_keeps_seq Checksum.sign caseFirstCompare
           samplePrivateKey sampleRecord _
           (okValue (snd (encode Checksum.sign caseFirstCompare
                            (Some samplePrivateKey) sampleRecord)))).
  vm_compute. reflexivity.
Defined.

(** The failure at [largeRecord], which has no signature: the call fails on
    the size limit and leaves the record signed. *)
Lemma encode_failure_keeps_new_signature_witness :
  let this' := fst (encode Checksum.sign caseFirstCompare
                      (Some samplePrivateKey) largeRecord) in
  snd (encode Checksum.sign caseFirstCompare (Some samplePrivateKey) largeRecord)
    = Err RecordTooLarge
  /\ signature largeRecord = None
  /\ signature this' =
       Some (Checksum.sign samplePrivateKey
               (RLP.encode (content caseFirstCompare largeRecord)))
  /\ this' <> largeRecord.
Proof.
  intros this'.
  assert (Hrun : encode Checksum.sign caseFirstCompare (Some samplePrivateKey)
                   largeRecord = (this', Err RecordTooLarge))
    by (vm_compute; reflexivity).
  destruct (encode_failure_keeps_new_signature Checksum.sign caseFirstCompare
              samplePrivateKey largeRecord this' Hrun) as (Hsig & _ & Hdiff).
  split; [vm_compute; reflexivity |].
  split; [reflexivity |].
  split; [exact Hsig | exact (Hdiff eq_refl)].
Defined.



(** The order of the keys under [caseFirstCompare], which puts "a" before
    "B". *)
Lemma encode_orders_keys_by_locale_witness :
  sortedKeys caseFirstCompare (new_ENR [("B", [x01]); ("a", [x02])] 1%N (Some []))
    = ["a"; "B"]
  /\ bytewiseCompare "B" "a" = (-1)%Z.
Proof.
  destruct (encode_orders_keys_by_locale caseFirstCompare [] [x01] [x02]
              eq_refl eq_refl)
    as (Hbytes & Hkeys & _).
  split; [exact Hkeys | exact Hbytes].
Defined.

(** The sequence number under the scheme [Checksum]: the record goes in
    with 2^53 + 1 and comes back with 2^53. *)
Lemma decode_encode_rounds_large_seq_witness :
  let this :=
    new_ENR [("id", Buffer_from "v4");
             ("secp256k1", Checksum.publicKey_of samplePrivateKey)]
      (2 ^ 53 + 1)%N None in
  let run := encode Checksum.sign caseFirstCompare (Some samplePrivateKey) this in
  seq (fst run) = (2 ^ 53 + 1)%N
  /\ exists enr,
       decode Checksum.verify Runtime.utf8_lossy Runtime.Buffer_from_array
         Runtime.toBigIntBE_other Runtime.inheritedSet (okValue (snd run)) = Ok enr
       /\ seq enr = (2 ^ 53)%N.
Proof.
  intros this run.
  apply (decode_encode_rounds_large_seq Checksum.sign Checksum.verify
           Checksum.publicKey_of caseFirstCompare
           Runtime.utf8_lossy Runtime.Buffer_from_array
           Runtime.toBigIntBE_other Runtime.inheritedSet samplePrivateKey
           (fst run) (okValue (snd run)) Checksum_sign_verify).
  vm_compute. reflexivity.
Defined.

(** The round trip at [sampleRecord]. *)
Lemma decode_encode_round_trip_witness :
  let run := encode Checksum.sign caseFirstCompare (Some samplePrivateKey)
               sampleRecord in
  exists enr,
    decode Checksum.verify Runtime.utf8_lossy Runtime.Buffer_from_array
         Runtime.toBigIntBE_other Runtime.inheritedSet (okValue (snd run)) = Ok enr
    /\ signature enr = signature (fst run)
    /\ seq enr = seq (fst run)
    /\ (forall k, Map_get k (entries enr) = Map_get k (entries (fst run)))
    /\ snd (nodeId Checksum.nodeId enr) = snd (nodeId Checksum.nodeId (fst run)).
Proof.
  intros run.
  apply (decode_encode_round_trip Checksum.sign Checksum.verify Checksum.nodeId
           Checksum.publicKey_of caseFirstCompare
           Runtime.utf8_lossy Runtime.Buffer_from_array
           Runtime.toBigIntBE_other Runtime.inheritedSet
           samplePrivateKey sampleRecord
           (fst run) (okValue (snd run)) Checksum_sign_verify).
  - reflexivity.
  - reflexivity.
  - vm_compute. reflexivity.
  - vm_compute. reflexivity.
Defined.

(** Against C5 as it is stated, on two inputs.  The one byte 0x80 is the
    encoding of the empty byte string, not of a list: [decode] fails on the
    assertion "Decoded ENR must be an array", which is not
    [InvalidSignature], and returns no record; so it is not the case that
    [decode] either returns a record or fails with [InvalidSignature].  And
    [unsortedBytes] holds the pairs "secp256k1" and "id" in this order, with
    a signature made over the items in this order: [decode] returns the
    record, whose signature does not verify over the sequence number and
    the sorted pairs, the bytes [encode] signs. *)
Lemma decode_fails_otherwise_and_verifies_received_order :
  decode Checksum.verify Runtime.utf8_lossy Runtime.Buffer_from_array
    Runtime.toBigIntBE_other Runtime.inheritedSet [x80] = Err MalformedRecord
  /\ ~ (forall (v4_verify : option Buffer -> Buffer -> Buffer -> bool)
              (encoded : Buffer),
         (exists enr,
            decode v4_verify Runtime.utf8_lossy Runtime.Buffer_from_array
              Runtime.toBigIntBE_other Runtime.inheritedSet encoded = Ok enr)
         \/ decode v4_verify Runtime.utf8_lossy Runtime.Buffer_from_array
              Runtime.toBigIntBE_other Runtime.inheritedSet encoded
            = Err InvalidSignature)
  /\ exists enr,
       decode Echo.verify Runtime.utf8_lossy Runtime.Buffer_from_array
         Runtime.toBigIntBE_other Runtime.inheritedSet unsortedBytes = Ok enr
       /\ signature enr = Some unsortedSignature
       /\ sortedKeys bytewiseCompare enr = ["id"; "secp256k1"]
       /\ Echo.verify (Map_get "secp256k1" (entries enr))
            (RLP.encode (content bytewiseCompare enr)) unsortedSignature = false.
Proof.
  split; [reflexivity |]. split.
  - intros H.
    destruct (H Checksum.verify [x80]) as [[enr E] | E];
      vm_compute in E; discriminate.
  - eexists. split; [vm_compute; reflexivity |]. repeat split.
Qed.

(** [decode] on what [encode] returned for [sampleRecord], and on the same
    bytes with the first byte of the signature changed. *)
Example decode_accepts_signed_bytes_and_rejects_tampered :
  let encoded := okValue (snd (encode Checksum.sign caseFirstCompare
                                 (Some samplePrivateKey) sampleRecord)) in
  (exists enr,
     decode Checksum.verify Runtime.utf8_lossy Runtime.Buffer_from_array
       Runtime.toBigIntBE_other Runtime.inheritedSet encoded = Ok enr)
  /\ decode Checksum.verify Runtime.utf8_lossy Runtime.Buffer_from_array
       Runtime.toBigIntBE_other Runtime.inheritedSet
       (firstn 3 encoded ++ [x00] ++ skipn 4 encoded) = Err InvalidSignature.
Proof.
  split.
  - eexists. vm_compute. reflexivity.
  - vm_compute. reflexivity.
Qed.





(** The endpoint 192.0.2.1, port 30303, written to a fresh record and read
    back. *)
Lemma endpoint_set_then_get_witness :
  let this := createV4 (Checksum.publicKey_of samplePrivateKey) [] in
  let udp := [mkSegment 4 "ip4" [xc0; x00; x02; x01]; mkSegment 273 "udp" [x76; x5f]] in
  let after := fst (set_multiaddrUDP (Some udp) this) in
  multiaddrUDP TextMultiaddr.from after = (after, Ok (Some udp))
  /\ seq after = 3%N
  /\ signature after = None.
Proof.
  intros this udp after.
  destruct (endpoint_set_then_get TextMultiaddr.from this
              [xc0; x00; x02; x01] [x76; x5f] 30303 eq_refl)
    as (_ & _ & Hget & _ & Hseq & Hsig).
  split; [exact Hget |]. split; [exact Hseq | exact Hsig].
Defined.

(** A record of a scheme "v5". *)
Lemma unknown_scheme_is_rejected_witness :
  let this := new_ENR [("id", Buffer_from "v5")] 1%N None in
  encode Checksum.sign caseFirstCompare (Some samplePrivateKey) this
    = (this, Err ERR_INVALID_ID)
  /\ nodeId Checksum.nodeId this = (this, Err ERR_INVALID_ID).
Proof.
  intros this.
  destruct (unknown_scheme_is_rejected Checksum.sign Checksum.verify Checksum.nodeId
              caseFirstCompare this (Buffer_from "v5") [] [] samplePrivateKey
              eq_refl ltac:(discriminate))
    as (_ & _ & Hnode & Henc).
  split; [exact Henc | exact Hnode].
Defined.

(** ** The base64url instance reads back what it writes *)

Lemma sextetOf_charOf (s : N) :
  (s < 64)%N -> Base64url.sextetOf (Base64url.charOf s) = Some s.
Proof.
  intros H. rewrite <- (N2Nat.id s).
  assert (Hn : N.to_nat s < 64) by lia.
  revert Hn. generalize (N.to_nat s). intros n Hn.
  do 64 (destruct n as [| n]; [reflexivity |]). lia.
Qed.

Lemma byte_of_N_to_N (b : byte) : byte_of_N (Byte.to_N b) = b.
Proof.
  unfold byte_of_N. pose proof (Byte.to_N_bounded b).
  rewrite N.mod_small by lia. now rewrite Byte.of_to_N.
Qed.

Lemma byte_of_N_eq (n : N) (b : byte) : n = Byte.to_N b -> byte_of_N n = b.
Proof. intros ->. apply byte_of_N_to_N. Qed.

(** Quotients and remainders by a constant, named and bounded, for [lia]. *)
Ltac divmod_step a c :=
  let q := fresh "q" in
  let r := fresh "r" in
  pose proof (N.div_mod a c ltac:(lia));
  pose proof (N.mod_upper_bound a c ltac:(lia));
  set (q := (a / c)%N) in *; set (r := (a mod c)%N) in *;
  clearbody q r.

Ltac divmod :=
  cbv beta;
  repeat match goal with
    | |- context [(?a / ?c)%N] => divmod_step a c
    | |- context [(?a mod ?c)%N] => divmod_step a c
    | H : context [(?a / ?c)%N] |- _ => divmod_step a c
    | H : context [(?a mod ?c)%N] |- _ => divmod_step a c
    end;
  lia.

Lemma sextets_small (b : Buffer) :
  Forall (fun s => (s < 64)%N) (Base64url.sextets b).
Proof.
  assert (H : forall n (b : Buffer), length b <= n ->
            Forall (fun s => (s < 64)%N) (Base64url.sextets b)).
  { induction n as [| n IH]; intros [| b0 [| b1 [| b2 rest]]] Hlen;
      cbn [Base64url.sextets]; simpl length in Hlen; try lia;
      try (pose proof (Byte.to_N_bounded b0));
      try (pose proof (Byte.to_N_bounded b1));
      try (pose proof (Byte.to_N_bounded b2));
      repeat (apply Forall_cons; [divmod |]);
      try apply Forall_nil.
    apply IH. lia. }
  now apply (H (length b)).
Qed.

Lemma validSextets_chars (ss : list N) :
  Forall (fun s => (s < 64)%N) ss ->
  Base64url.validSextets (map Base64url.charOf ss) = ss.
Proof.
  induction 1 as [| s ss Hs _ IH]; [reflexivity |].
  cbn [map Base64url.validSextets]. now rewrite sextetOf_charOf, IH.
Qed.

Lemma bytes_sextets (b : Buffer) : Base64url.bytes (Base64url.sextets b) = b.
Proof.
  assert (H : forall n (b : Buffer), length b <= n ->
            Base64url.bytes (Base64url.sextets b) = b).
  { induction n as [| n IH]; intros [| b0 [| b1 [| b2 rest]]] Hlen;
      cbn [Base64url.sextets Base64url.bytes]; simpl length in Hlen; try lia;
      try reflexivity;
      try (pose proof (Byte.to_N_bounded b0));
      try (pose proof (Byte.to_N_bounded b1));
      try (pose proof (Byte.to_N_bounded b2)).
    - f_equal. apply byte_of_N_eq. divmod.
    - f_equal; [apply byte_of_N_eq; divmod |].
      f_equal. apply byte_of_N_eq. divmod.
    - rewrite (IH rest) by lia.
      f_equal; [apply byte_of_N_eq; divmod |].
      f_equal; [apply byte_of_N_eq; divmod |].
      f_equal. apply byte_of_N_eq. divmod. }
  now apply (H (length b)).
Qed.

Lemma Base64url_toBuffer_encode :
  base64url_law Base64url.encode Base64url.toBuffer.
Proof.
  intros b. unfold Base64url.toBuffer, Base64url.encode.
  rewrite list_ascii_of_string_of_list_ascii, validSextets_chars
    by apply sextets_small.
  apply bytes_sextets.
Qed.

(** ** Further properties on concrete records *)

Lemma encode_again_without_key_witness :
  encode Checksum.sign caseFirstCompare None
    (fst (encode Checksum.sign caseFirstCompare (Some samplePrivateKey) sampleRecord)) =
  encode Checksum.sign caseFirstCompare (Some samplePrivateKey) sampleRecord.
Proof.
  apply (encode_again_without_key Checksum.sign caseFirstCompare
           samplePrivateKey sampleRecord).
  reflexivity.
Defined.

Lemma sign_then_verify_witness :
  let data := [x01; x02; x03] in
  let s := Checksum.sign samplePrivateKey data in
  let signed := fst (sign Checksum.sign data samplePrivateKey sampleRecord) in
  snd (sign Checksum.sign data samplePrivateKey sampleRecord) = Ok s
  /\ signature signed = Some s
  /\ verify Checksum.verify data s signed = (signed, Ok true).
Proof.
  apply (sign_then_verify Checksum.sign Checksum.verify Checksum.publicKey_of
           [x01; x02; x03] samplePrivateKey sampleRecord Checksum_sign_verify).
  - reflexivity.
  - reflexivity.
Defined.

Lemma missing_scheme_is_a_type_error_witness :
  let this := new_ENR [("secp256k1", samplePrivateKey)] 1%N None in
  id this = (this, Err TypeError)
  /\ keypairType this = (this, Err TypeError)
  /\ publicKey this = (this, Err TypeError)
  /\ nodeId Checksum.nodeId this = (this, Err TypeError)
  /\ verify Checksum.verify [x01] [x02] this = (this, Err TypeError)
  /\ sign Checksum.sign [x01] samplePrivateKey this = (this, Err TypeError)
  /\ encode Checksum.sign caseFirstCompare (Some samplePrivateKey) this =
       (this, Err TypeError).
Proof.
  apply (missing_scheme_is_a_type_error Checksum.sign Checksum.verify
           Checksum.nodeId caseFirstCompare
           (new_ENR [("secp256k1", samplePrivateKey)] 1%N None)
           [x01] [x02] samplePrivateKey).
  reflexivity.
Defined.

Lemma decode_accepts_what_verifies_witness :
  let seqBytes := [x00; x07] in
  let sig :=
    Checksum.sign samplePrivateKey
      (RLP.encode (map RLP.IBuf (seqBytes :: keyValueItems unsortedItems))) in
  let encoded :=
    RLP.encode (map RLP.IBuf (sig :: seqBytes :: keyValueItems unsortedItems)) in
  (MAX_RECORD_SIZE <=? length encoded)%nat = true
  /\ exists enr,
       decode Checksum.verify Runtime.utf8_lossy Runtime.Buffer_from_array
         Runtime.toBigIntBE_other Runtime.inheritedSet encoded = Ok enr
       /\ seq enr = 7%N
       /\ Map_keys (entries enr) = ["udp"; "secp256k1"; "blob"; "id"]
       /\ Map_get "udp" (entries enr) = Some [x76; x60].
Proof.
  intros seqBytes sig encoded.
  split; [vm_compute; reflexivity |].
  destruct (decode_accepts_what_verifies Checksum.verify
              Runtime.utf8_lossy Runtime.Buffer_from_array
              Runtime.toBigIntBE_other Runtime.inheritedSet
              sig seqBytes unsortedItems)
    as (Hdecode & Hseq & Hget).
  - vm_compute. reflexivity.
  - reflexivity.
  - reflexivity.
  - vm_compute. reflexivity.
  - eexists. split; [exact Hdecode |].
    split; [exact Hseq |]. split; [reflexivity | exact (Hget "udp")].
Defined.

Lemma decodeTxt_encodeTxt_round_trip_witness :
  let run :=
    encodeTxt Checksum.sign caseFirstCompare Base64url.encode
      samplePrivateKey sampleRecord in
  let txt := match snd run with Ok txt => txt | Err _ => EmptyString end in
  snd run = Ok txt
  /\ String.prefix "enr:" txt = true
  /\ exists enr,
       decodeTxt Checksum.verify Runtime.utf8_lossy Runtime.Buffer_from_array
         Runtime.toBigIntBE_other Runtime.inheritedSet Base64url.toBuffer txt
       = Ok enr
       /\ signature enr = signature (fst run)
       /\ seq enr = seq (fst run)
       /\ (forall k, Map_get k (entries enr) = Map_get k (entries (fst run)))
       /\ snd (nodeId Checksum.nodeId enr) = snd (nodeId Checksum.nodeId (fst run)).
Proof.
  intros run txt.
  split; [vm_compute; reflexivity |].
  destruct (decodeTxt_encodeTxt_round_trip Checksum.sign Checksum.verify
              Checksum.nodeId Checksum.publicKey_of caseFirstCompare
              Runtime.utf8_lossy Runtime.Buffer_from_array
              Runtime.toBigIntBE_other Runtime.inheritedSet
              Base64url.encode Base64url.toBuffer samplePrivateKey sampleRecord
              (fst run) txt Base64url_toBuffer_encode Checksum_sign_verify)
    as (Hprefix & Hdecode & _).
  - reflexivity.
  - reflexivity.
  - vm_compute. reflexivity.
  - vm_compute. reflexivity.
  - split; [exact Hprefix | exact Hdecode].
Defined.

Lemma encode_with_another_key_is_refused_by_decode_witness :
  let anotherKey := [x2b] in
  let run := encode Checksum.sign caseFirstCompare (Some anotherKey) sampleRecord in
  signature (fst run) =
    Some (Checksum.sign anotherKey (RLP.encode (content caseFirstCompare sampleRecord)))
  /\ decode Checksum.verify Runtime.utf8_lossy Runtime.Buffer_from_array
         Runtime.toBigIntBE_other Runtime.inheritedSet (okValue (snd run)) = Err InvalidSignature.
Proof.
  intros anotherKey run.
  apply (encode_with_another_key_is_refused_by_decode Checksum.sign Checksum.verify
           caseFirstCompare Runtime.utf8_lossy Runtime.Buffer_from_array
           Runtime.toBigIntBE_other Runtime.inheritedSet
           anotherKey sampleRecord (fst run) (okValue (snd run))).
  - reflexivity.
  - reflexivity.
  - vm_compute. reflexivity.
  - vm_compute. reflexivity.
Defined.


Lemma ipv6_endpoint_set_then_get_witness :
  let ip := repeat x00 15 ++ [x02] in
  let port := [x76; x61] in
  let endpoint := [mkSegment 41 "ip6" ip; mkSegment 273 "udp" port] in
  let fresh := createV4 (Checksum.publicKey_of samplePrivateKey) [] in
  let after := fst (multiaddrSetter "udp" (Some endpoint) sampleRecord) in
  let afterFresh := fst (multiaddrSetter "udp" (Some endpoint) fresh) in
  Map_get "ip6" (entries after) = Some ip
  /\ Map_get "udp6" (entries after) = Some port
  /\ multiaddrGetter TextMultiaddr.from "udp" after =
       (after,
        Ok (Some [mkSegment 4 "ip4" [xc0; x00; x02; x01];
                  mkSegment 273 "udp" [x76; x5f]]))
  /\ multiaddrGetter TextMultiaddr.from "udp" afterFresh =
       (afterFresh,
        (multiaddr <-
           newMultiaddr TextMultiaddr.from
             "/ip6/0:0:0:0:0:0:0:0:0:0:0:0:0:0:0:2/udp/30305" ;;
         Ok (Some multiaddr))%result).
Proof.
  intros ip port endpoint fresh after afterFresh.
  destruct (ipv6_endpoint_set_then_get TextMultiaddr.from "udp" sampleRecord
              41 273 "ip6" "udp" ip port 30305) as (_ & Hip & Hport & _ & Hv4);
    [now left | discriminate | reflexivity |].
  destruct (ipv6_endpoint_set_then_get TextMultiaddr.from "udp" fresh
              41 273 "ip6" "udp" ip port 30305) as (_ & _ & _ & Hv6 & _);
    [now left | discriminate | reflexivity |].
  split; [exact Hip |]. split; [exact Hport |].
  split.
  - apply (Hv4 [xc0; x00; x02; x01] [x76; x5f] 30303%N); reflexivity.
  - apply Hv6. reflexivity.
Defined.

(** The sample record with an entry under __proto__, encoded and decoded
    under the comparison byte by byte, which puts that key first: the
    record read back has the other entries and not this one. *)
Lemma decode_drops_proto_entry_witness :
  let this := fst (set "__proto__" [x01] sampleRecord) in
  let run := encode Checksum.sign bytewiseCompare (Some samplePrivateKey) this in
  Map_get "__proto__" (entries this) = Some [x01]
  /\ exists enr,
       decode Checksum.verify Runtime.utf8_lossy Runtime.Buffer_from_array
         Runtime.toBigIntBE_other Runtime.inheritedSet (okValue (snd run)) = Ok enr
       /\ Map_get "__proto__" (entries enr) = None
       /\ Map_get "id" (entries enr) = Some (Buffer_from "v4").
Proof.
  intros this run.
  split; [reflexivity |].
  set (after := map (fun k => (k, valueBytes this k))
                  (tl (sortedKeys bytewiseCompare this))).
  set (sig := Checksum.sign samplePrivateKey
                (RLP.encode (content bytewiseCompare this))).
  assert (Hbytes :
    okValue (snd run) =
      RLP.encode (map RLP.IBuf
        (sig :: [x02] :: keyValueItems ([] ++ ("__proto__", [x01]) :: after))))
    by (vm_compute; reflexivity).
  rewrite Hbytes.
  destruct (decode_drops_proto_entry Checksum.verify
              Runtime.utf8_lossy Runtime.Buffer_from_array
              Runtime.toBigIntBE_other Runtime.inheritedSet
              sig [x02] [x01] [] after)
    as (Hdecode & Hproto & Hget).
  - vm_compute. reflexivity.
  - reflexivity.
  - intros kv Hin. vm_compute in Hin.
    repeat (destruct Hin as [<- | Hin]; [reflexivity |]). contradiction.
  - reflexivity.
  - vm_compute. reflexivity.
  - eexists. split; [exact Hdecode |]. split; [exact Hproto |].
    rewrite (Hget "id") by discriminate. reflexivity.
Defined.
